(** * A shallow embedding of [client.js]

    The file embeds the two classes of [src/client.js]:
    - [FirebaseClient]: the event-stream connection ([connect], [close]),
      the REST helpers ([_makeUrl], [_update], [put], [get]) and the
      handler table ([on], [off], [emit]);
    - [LoopFirebaseServer]: the identifier generator ([makeId]), record
      formatting ([_formatRecord], [_recordsFormatter]), the listener for
      [put], the write path ([update], [delete]) and the two range
      queries ([requestRoomData], [requestChat]).

    JavaScript data is modelled as the program has it.  A string is its
    sequence of UTF-16 code units, a number that the program only uses as
    an integer is a [Z], an array or object used as a table is a finite
    map from its property keys, and a function that can throw returns a
    [result]. *)

From Stdlib Require Import ZArith NArith List String Ascii Lia Bool Sorted.
From stdpp Require Import base gmap strings list pretty.

(** ** JavaScript values *)

Module JS.

(** A JavaScript string: the list of its UTF-16 code units. *)
Abbreviation jsstring := (list N).

Fixpoint codes (s : string) : jsstring :=
  match s with
  | EmptyString => []
  | String c r => N_of_ascii c :: codes r
  end.

(** The relational operators on two strings compare code units
    lexicographically. *)
Fixpoint lex_compare (a b : jsstring) : comparison :=
  match a, b with
  | [], [] => Eq
  | [], _ :: _ => Lt
  | _ :: _, [] => Gt
  | x :: a', y :: b' =>
      match N.compare x y with
      | Eq => lex_compare a' b'
      | c => c
      end
  end.

Definition str_lt (a b : jsstring) : Prop := lex_compare a b = Lt.

(** What a [throw] carries: [new Error(msg)], a [TypeError] raised by the
    language itself, or a value thrown by user code. *)
Inductive exn :=
| Error (msg : string)
| TypeError
| UserExn (tag : nat).

Inductive result (A : Type) :=
| Ok (a : A)
| Throw (e : exn).
Arguments Ok {A} a.
Arguments Throw {A} e.

(** A number slot of an array: an integer or [NaN].  A missing array
    element ([undefined]) is an absent key of the map. *)
Inductive jsnum := Num (z : Z) | NaN.

(** [ToNumber] of an array element. *)
Definition to_number (v : option jsnum) : jsnum :=
  match v with
  | Some n => n
  | None => NaN
  end.

(** [ToIntegerOrInfinity], as [charAt] applies it to its argument:
    [undefined] and [NaN] become 0. *)
Definition to_integer (v : option jsnum) : Z :=
  match v with
  | Some (Num z) => z
  | _ => 0%Z
  end.

(** [x + 1] on a number. *)
Definition add1 (n : jsnum) : jsnum :=
  match n with
  | Num z => Num (z + 1)
  | NaN => NaN
  end.

(** [s.charAt(pos)]: the one-unit string at [pos], or the empty string
    when [pos] is out of range. *)
Definition charAt (s : jsstring) (pos : Z) : jsstring :=
  if (pos <? 0)%Z then []
  else match s !! Z.to_nat pos with
       | Some c => [c]
       | None => []
       end.

(** A number holds an integer exactly up to [2^53] in absolute value;
    beyond that an addition or a subtraction returns the nearest number
    with a 53-bit mantissa, ties going to the even mantissa.
    [roundDouble z] is what such an operation returns when its exact
    result is [z] (sizes that a number cannot hold at all, from [2^1024]
    on, are not considered). *)
Definition roundDouble (z : Z) : Z :=
  let a := Z.abs z in
  if (a <? 2 ^ 53)%Z then z
  else
    let e := (Z.log2 a - 52)%Z in
    let q := (a / 2 ^ e)%Z in
    let r := (a mod 2 ^ e)%Z in
    let half := (2 ^ (e - 1))%Z in
    let q' := if (half <? r)%Z || ((r =? half)%Z && Z.odd q)
              then (q + 1)%Z else q in
    (Z.sgn z * (q' * 2 ^ e))%Z.

(** [a.join("")] on an array of strings. *)
Definition join (a : list jsstring) : jsstring := concat a.

(** JSON data, as [JSON.parse] returns it and [JSON.stringify] takes it.
    The members of an object are kept in insertion order. *)
#[warnings="-register-all"]
Inductive json :=
| JNull
| JBool (b : bool)
| JNum (z : Z)
| JStr (s : jsstring)
| JArr (items : list json)
| JObj (props : list (jsstring * json)).

(** [o[key]] on the members of an object. *)
Fixpoint getProp (key : jsstring) (props : list (jsstring * json)) : option json :=
  match props with
  | [] => None
  | (k, v) :: r => if decide (k = key) then Some v else getProp key r
  end.

(** [o[key] = v]: an existing member keeps its place, a new one goes last. *)
Fixpoint setProp (key : jsstring) (v : json) (props : list (jsstring * json))
  : list (jsstring * json) :=
  match props with
  | [] => [(key, v)]
  | (k, w) :: r =>
      if decide (k = key) then (k, v) :: r else (k, w) :: setProp key v r
  end.

End JS.
Import JS.

(** ** [class FirebaseClient] *)

Module FirebaseClient.

(** *** The handler table: [on], [off], [emit] *)

Section Handlers.

(** [P] is the type of payloads; [U] is everything else a callback can
    read or change.  A callback is a function object, identified by a
    number, and [call] gives what invoking it does: the state it leaves and
    the exception it throws, if any.  [inherited name] tells whether
    [Object.prototype] defines [name], in which case [name in this._handlers]
    holds and [this._handlers[name]] is not an array although no handler
    was ever registered. *)
Context {P U : Type}.
Variable inherited : jsstring -> bool.

Record hub := Hub {
  _handlers : gmap jsstring (list nat);
  rest : U
}.

Variable call : nat -> P -> hub -> hub * option exn.

Definition on (eventName : jsstring) (callback : nat) (w : hub)
  : hub * option exn :=
  match _handlers w !! eventName with
  | Some l =>
      (Hub (<[eventName := l ++ [callback]]> (_handlers w)) (rest w), None)
  | None =>
      if inherited eventName then (w, Some TypeError)
      else (Hub (<[eventName := [callback]]> (_handlers w)) (rest w), None)
  end.

(** [l.splice(l.indexOf(callback), 1)] when [l.includes(callback)]. *)
Fixpoint removeFirst (callback : nat) (l : list nat) : list nat :=
  match l with
  | [] => []
  | c :: r => if Nat.eqb c callback then r else c :: removeFirst callback r
  end.

Definition off (eventName : jsstring) (callback : nat) (w : hub)
  : hub * option exn :=
  match _handlers w !! eventName with
  | Some l =>
      if existsb (Nat.eqb callback) l
      then (Hub (<[eventName := removeFirst callback l]> (_handlers w)) (rest w),
            None)
      else (w, None)
  | None => if inherited eventName then (w, Some TypeError) else (w, None)
  end.

(** The outcome of one [emit]: the state it leaves, the calls it made in
    order, each with the argument passed, and the exception that left
    it, if any. *)
Definition emitted : Type := hub * list (nat * P) * option exn.

(** The [for ... of] loop over the array [this._handlers[eventName]].  The
    array iterator reads the array anew at every step (index [i] against
    the current length), so the loop sees what a callback adds to or
    removes from that same array.  A callback may keep adding handlers, so
    the loop is bounded by [fuel]. *)
Fixpoint emitLoop (fuel : nat) (eventName : jsstring) (argument : P)
    (i : nat) (w : hub) (calls : list (nat * P)) : option emitted :=
  match fuel with
  | O => None
  | S fuel' =>
      match default [] (_handlers w !! eventName) !! i with
      | None => Some (w, calls, None)
      | Some callback =>
          let (w', thrown) := call callback argument w in
          match thrown with
          | Some e => Some (w', calls ++ [(callback, argument)], Some e)
          | None =>
              emitLoop fuel' eventName argument (S i) w'
                (calls ++ [(callback, argument)])
          end
      end
  end.

Definition emit (fuel : nat) (eventName : jsstring) (argument : P) (w : hub)
  : option emitted :=
  match _handlers w !! eventName with
  | Some _ => emitLoop fuel eventName argument 0 w []
  | None =>
      if inherited eventName then Some (w, [], Some TypeError)
      else Some (w, [], None)
  end.

End Handlers.

Arguments hub : clear implicits.
Arguments Hub {U} _ _.

(** *** The event stream: [connect], [close] and the channel callbacks *)

(** What the client passes to [emit] on the connection's behalf. *)
Inductive payload :=
| ErrorEvent (error : nat)
| CloseInfo (reason : jsstring) (event : option nat)
| Parsed (data : json).

(** The deferred result of [connect()].  Once settled it never changes:
    later calls of [resolve] or [reject] do nothing. *)
Inductive promise :=
| Pending
| Fulfilled
| Rejected (error : nat).

(** The client as far as the connection is concerned.  [_sse] is the
    current [EventSource], numbered in creation order; [closedSources]
    lists the sources on which [close()] was called; [resolved] and
    [connectResult] are the flag and the promise of the latest [connect()]
    call.  Each call of [this.emit] is recorded in [emits] and each
    [console.warn] in [warnings]; what the registered callbacks do is
    the matter of [emit] above. *)
Record client := Client {
  _sse : option nat;
  sourcesMade : nat;
  closedSources : list nat;
  resolved : bool;
  connectResult : promise;
  emits : list (jsstring * payload);
  warnings : list string
}.

Definition newClient : client :=
  Client None 0 [] false Pending [] [].

Definition warn (msg : string) (c : client) : client :=
  Client (_sse c) (sourcesMade c) (closedSources c) (resolved c)
    (connectResult c) (emits c) (warnings c ++ [msg]).

Definition notify (eventName : string) (p : payload) (c : client) : client :=
  Client (_sse c) (sourcesMade c) (closedSources c) (resolved c)
    (connectResult c) (emits c ++ [(codes eventName, p)]) (warnings c).

Definition close (reason : jsstring) (c : client) : client :=
  match _sse c with
  | None => warn "Attempt to close event stream that isn't open" c
  | Some src =>
      notify "close" (CloseInfo reason None)
        (Client None (sourcesMade c) (closedSources c ++ [src]) (resolved c)
           (connectResult c) (emits c) (warnings c))
  end.

Definition _onClose (event : nat) (c : client) : client :=
  notify "close" (CloseInfo (codes "reset") (Some event))
    (warn "Event stream unexpectedly closed:" c).

Definition _onRemoteClose (reason : jsstring) (c : client) : client :=
  close reason (warn "Event stream closed by remote because:" c).

Definition _onEvent (eventName : string) (data : json) (c : client) : client :=
  notify eventName (Parsed data) c.

Definition settle (p : promise) (c : client) : client :=
  match connectResult c with
  | Pending =>
      Client (_sse c) (sourcesMade c) (closedSources c) (resolved c) p
        (emits c) (warnings c)
  | _ => c
  end.

(** The body of the promise executor of [connect()], up to the point where
    the two callbacks are installed. *)
Definition connect (c : client) : client :=
  let c1 :=
    match _sse c with
    | Some _ =>
        close (codes "reconnect") (warn "Reconnecting with open event stream" c)
    | None => c
    end in
  Client (Some (sourcesMade c1)) (S (sourcesMade c1)) (closedSources c1)
    false Pending (emits c1) (warnings c1).

(** [this._sse.onerror]. *)
Definition onerror (error : nat) (c : client) : client :=
  if negb (resolved c) then settle (Rejected error) c
  else notify "error" (ErrorEvent error) c.

(** [this._sse.onopen]. *)
Definition onopen (c : client) : client :=
  settle Fulfilled
    (Client (_sse c) (sourcesMade c) (closedSources c) true (connectResult c)
       (emits c) (warnings c)).

(** What the current event source reports, in order. *)
Inductive report :=
| Open
| Failure (error : nat).

Definition deliver (c : client) (r : report) : client :=
  match r with
  | Open => onopen c
  | Failure error => onerror error c
  end.

Definition deliverAll (rs : list report) (c : client) : client :=
  fold_left deliver rs c.

(** *** The REST helpers *)

Definition slash : N := 47.

Fixpoint stripLeading (s : jsstring) : jsstring :=
  match s with
  | c :: r => if N.eqb c slash then stripLeading r else s
  | [] => []
  end.

(** [s.replace(/\/*$/, "")]. *)
Definition stripTrailing (s : jsstring) : jsstring :=
  rev (stripLeading (rev s)).

(** The [path] argument of [_makeUrl]: a string or an array of strings. *)
Inductive pathArg :=
| PathString (s : jsstring)
| PathArray (parts : list jsstring).

Fixpoint joinWith (sep : jsstring) (parts : list jsstring) : jsstring :=
  match parts with
  | [] => []
  | [p] => p
  | p :: r => p ++ sep ++ joinWith sep r
  end.

(** [this.url], as the constructor stores it. *)
Definition baseUrl (url : jsstring) : jsstring := stripTrailing url.

Definition _makeUrl (url : jsstring) (path : pathArg) : jsstring :=
  let p := match path with
           | PathString s => s
           | PathArray parts => joinWith [slash] parts
           end in
  baseUrl url ++ [slash] ++ stripTrailing (stripLeading p) ++ codes ".json".

(** An [XMLHttpRequest] as [_request] sends it.  The body is the JSON
    document that the text passed to [send] denotes. *)
Record request := Request {
  method : string;
  target : jsstring;
  body : option json
}.

(** [JSON.stringify({timestamp: {".sv": "timestamp"}, value})]: a member
    whose value is [undefined] ([None] here) is left out. *)
Definition writeBody (value : option json) : json :=
  JObj ((codes "timestamp", JObj [(codes ".sv", JStr (codes "timestamp"))])
        :: match value with
           | Some v => [(codes "value", v)]
           | None => []
           end).

(** [value === null]. *)
Definition isNull (value : option json) : bool :=
  match value with
  | Some JNull => true
  | _ => false
  end.

Definition _update (url : jsstring) (method : string) (path : pathArg)
    (value : option json) : result request :=
  if String.eqb method "DELETE" && negb (isNull value)
  then Throw (Error "No value expected for .delete()")
  else Ok (Request method (_makeUrl url path) (Some (writeBody value))).

Definition put url path body := _update url "PUT" path body.
Definition patch url path body := _update url "PATCH" path body.
Definition post url path body := _update url "POST" path body.
Definition delete url path := _update url "DELETE" path (Some JNull).

Definition get (url : jsstring) (path : pathArg) (query : jsstring) : request :=
  Request "GET" (_makeUrl url path ++ codes "?" ++ query) None.

(** *** The event sources when handlers call back into the client *)

(** The part of the client that [connect] and [close] work on: the
    current event source, the number of sources made so far, which
    numbers them, and the sources on which [close()] was called. *)
Record sources := Sources {
  current : option nat;
  made : nat;
  shut : list nat
}.

Section Reentrant.

(** [emit] runs the registered handlers where it is called, inside
    [close] for one, and a handler may itself call [connect] or [close].
    [handlers eventName p s] tells what the handlers registered for the
    event do to the sources when they run with payload [p], and whether
    one of them throws. *)
Variable handlers : jsstring -> payload -> sources -> sources * bool.

(** [close(reason)]: the source is closed and forgotten before [emit]
    runs the handlers. *)
Definition closeSources (reason : jsstring) (s : sources) : sources * bool :=
  match current s with
  | None => (s, false)
  | Some x =>
      handlers (codes "close") (CloseInfo reason None)
        (Sources None (made s) (shut s ++ [x]))
  end.

(** [connect()]: the new source is made and assigned after the call of
    [close("reconnect")] has returned.  An exception of that call ends
    the executor of the promise there; it does not leave [connect]. *)
Definition connectSources (s : sources) : sources :=
  let (s1, thrown) :=
    match current s with
    | Some _ => closeSources (codes "reconnect") s
    | None => (s, false)
    end in
  if thrown then s1
  else Sources (Some (made s1)) (S (made s1)) (shut s1).

(** What can happen to the sources: the owner calls [connect()] or
    [close(reason)] (as [_onRemoteClose] does for the current source), or
    an event of the current source makes the client emit. *)
Inductive step :=
| StepConnect
| StepClose (reason : jsstring)
| StepEmit (eventName : jsstring) (p : payload).

Definition runStep (s : sources) (a : step) : sources :=
  match a with
  | StepConnect => connectSources s
  | StepClose reason => fst (closeSources reason s)
  | StepEmit eventName p => fst (handlers eventName p s)
  end.

Definition runSteps (l : list step) (s : sources) : sources :=
  fold_left runStep l s.

End Reentrant.

(** The sources of a client. *)
Definition sourcesOf (c : client) : sources :=
  Sources (_sse c) (sourcesMade c) (closedSources c).

(** Handlers that leave the client alone and return. *)
Definition quiet (eventName : jsstring) (p : payload) (s : sources)
  : sources * bool := (s, false).

(** Handlers that call [close("done")], whatever the event. *)
Definition closing (eventName : jsstring) (p : payload) (s : sources)
  : sources * bool := closeSources quiet (codes "done") s.

(** A handler for [close] that calls [connect()], next to handlers that
    leave the client alone. *)
Definition reconnecting (eventName : jsstring) (p : payload) (s : sources)
  : sources * bool :=
  if bool_decide (eventName = codes "close")
  then (connectSources quiet s, false)
  else (s, false).

(** The reports that follow the first [open]. *)
Fixpoint afterOpen (rs : list report) : list report :=
  match rs with
  | [] => []
  | Open :: r => r
  | Failure _ :: r => afterOpen r
  end.

End FirebaseClient.

(** ** [class LoopFirebaseServer] *)

Module LoopFirebaseServer.

Local Open Scope Z_scope.

Definition CHARS : jsstring :=
  codes "0123456789ABCDEFGHIJKLMNOPQRSTUVWXYZ_abcdefghijklmnopqrstuvwxyz~".

(** The properties that [makeId] keeps on its own function object. *)
Record statics := mkStatics {
  lastRandChars : gmap Z jsnum;
  lastTime : Z
}.

(** [makeId.CHARS === undefined] holds until the first call, which then
    installs these defaults. *)
Definition init_statics : statics :=
  {| lastRandChars := ∅; lastTime := 0 |}.

Definition ensure_init (g : option statics) : statics :=
  match g with
  | Some s => s
  | None => init_statics
  end.

(** The loop [for (let i = 7; i >= 0; i--)]: [n] iterations remain. *)
Fixpoint stampLoop (n : nat) (time : Z) (timeStampChars : list jsstring)
  : list jsstring * Z :=
  match n with
  | O => (timeStampChars, time)
  | S k =>
      stampLoop k (time / 64) (charAt CHARS (Z.rem time 64) :: timeStampChars)
  end.

Definition is63 (v : option jsnum) : bool :=
  match v with
  | Some (Num 63) => true
  | _ => false
  end.

(** The loop [for (; i >= 0 && lastRandChars[i] === 63; i--)], entered
    with [i = n - 1]; it returns the final [i]. *)
Fixpoint carryLoop (n : nat) (m : gmap Z jsnum) : Z * gmap Z jsnum :=
  match n with
  | O => (-1, m)
  | S k =>
      if is63 (m !! Z.of_nat k)
      then carryLoop k (<[Z.of_nat k := Num 0]> m)
      else (Z.of_nat k, m)
  end.

(** [lastRandChars[i]++]. *)
Definition postIncrement (i : Z) (m : gmap Z jsnum) : gmap Z jsnum :=
  <[i := add1 (to_number (m !! i))]> m.

(** The same-millisecond branch. *)
Definition increment (m : gmap Z jsnum) : gmap Z jsnum :=
  let (i, m') := carryLoop 12 m in postIncrement i m'.

(** The other branch.  [rnd i] is the value that
    [Math.floor(Math.random() * 64)] takes at loop index [i]. *)
Definition redraw (rnd : nat -> Z) (m : gmap Z jsnum) : gmap Z jsnum :=
  fold_left (fun acc i => <[Z.of_nat i := Num (rnd i)]> acc) (seq 0 12) m.

(** The loop that appends the twelve suffix characters to [id]. *)
Definition suffixChars (m : gmap Z jsnum) : jsstring :=
  concat (map (fun i => charAt CHARS (to_integer (m !! Z.of_nat i))) (seq 0 12)).

(** [makeId(time)].  [time] is a number of milliseconds, an integer; [g]
    is the state of the function object before the call and [rnd] gives the
    random draws the call would make.  The call returns the identifier or
    throws, and leaves the new state in both cases: [lastTime] is
    assigned before the first [throw]. *)
Definition makeId (g : option statics) (rnd : nat -> Z) (time : Z)
  : result jsstring * option statics :=
  let s := ensure_init g in
  let duplicateTime := time =? lastTime s in
  let '(timeStampChars, rest) := stampLoop 8 time [] in
  if negb (rest =? 0)
  then (Throw (Error "We should have converted the entire timestamp."),
        Some {| lastRandChars := lastRandChars s; lastTime := time |})
  else
    let m := if duplicateTime then increment (lastRandChars s)
             else redraw rnd (lastRandChars s) in
    let id := join timeStampChars ++ suffixChars m in
    let g' := Some {| lastRandChars := m; lastTime := time |} in
    if negb (Nat.eqb (length id) 20)
    then (Throw (Error "Length should be 20."), g')
    else (Ok id, g').


(** [getServerTime(time)]. *)
Definition getServerTime (clockSkew time : Z) : Z :=
  roundDouble (clockSkew + time).

Definition MAX_LIMIT : Z := 2147483647.

(** *** Record formatting *)

Definition bang : N := 33.

(** The characters that [.] does not match in a regular expression:
    LF, CR, U+2028 and U+2029. *)
Definition isLineTerminator (c : N) : bool :=
  (c =? 10)%N || (c =? 13)%N || (c =? 8232)%N || (c =? 8233)%N.

(** The group [([^!]+)] at the start of the key: the longest run of units
    other than [!], and what follows it. *)
Fixpoint spanNotBang (s : jsstring) : jsstring * jsstring :=
  match s with
  | [] => ([], [])
  | c :: r =>
      if (c =? bang)%N then ([], s)
      else let (a, b) := spanNotBang r in (c :: a, b)
  end.

(** [key.match(/^([^!]+)!(.+)$/)], giving the two groups.  The first group
    is greedy and cannot give a unit back, since the next unit must be
    [!]; the second group has to reach the end of the key, so it is the
    whole remainder, which must be non-empty and free of line terminators. *)
Definition matchKey (key : jsstring) : option (jsstring * jsstring) :=
  let (type, after) := spanNotBang key in
  match type, after with
  | _ :: _, b :: id =>
      if (b =? bang)%N && negb (Nat.eqb (length id) 0)
         && forallb (fun c => negb (isLineTerminator c)) id
      then Some (type, id)
      else None
  | _, _ => None
  end.

(** [_formatRecord(key, record)].  [record] is an object, given by its
    members, or [None] for [null] and [undefined].  Destructuring a failed
    match and [Object.assign] on [null] both raise a [TypeError]. *)
Definition _formatRecord (key : jsstring)
    (record : option (list (jsstring * json)))
  : result (list (jsstring * json)) :=
  match matchKey key with
  | None => Throw TypeError
  | Some (type, id) =>
      match record with
      | None => Throw TypeError
      | Some props =>
          Ok (setProp (codes "type") (JStr type)
                (setProp (codes "id") (JStr id) props))
      end
  end.

(** What [_formatRecord] returns on any value: a plain object comes back
    with its members; an array or a primitive comes back as the array, or
    the wrapper object of the primitive, with the members [id] and [type]
    added to it. *)
Inductive formattedValue :=
| Members (props : list (jsstring * json))
| Extended (base : json) (id type : jsstring).

(** [_formatRecord(key, record)] for every value that [JSON.parse] can
    give, [None] standing for [undefined].  [Object.assign] throws on
    [null] and [undefined] and turns any other primitive into its wrapper
    object. *)
Definition _formatRecordAny (key : jsstring) (record : option json)
  : result formattedValue :=
  match matchKey key with
  | None => Throw TypeError
  | Some (type, id) =>
      match record with
      | None => Throw TypeError
      | Some JNull => Throw TypeError
      | Some (JObj props) =>
          Ok (Members (setProp (codes "type") (JStr type)
                         (setProp (codes "id") (JStr id) props)))
      | Some base => Ok (Extended base id type)
      end
  end.

(** *** Writes *)

(** The template [`${type}!${id}`]. *)
Definition compositeKey (type id : jsstring) : jsstring :=
  type ++ [bang] ++ id.

(** A request together with the callback given to [then]. *)
Record pendingWrite := PendingWrite {
  sent : result FirebaseClient.request;
  whenDone : option (list (jsstring * json)) -> result (list (jsstring * json))
}.

Definition update (url type id : jsstring) (value : option json)
  : pendingWrite :=
  let key := compositeKey type id in
  PendingWrite (FirebaseClient.put url (FirebaseClient.PathString key) value)
    (fun result => _formatRecord key result).

(** [delete(type, id)] calls [update] with two arguments, so the third
    one is [undefined]. *)
Definition delete (url type id : jsstring) : pendingWrite :=
  update url type id None.

(** *** Queries *)

Inductive queryValue :=
| QString (s : jsstring)
| QNumber (z : Z).

(** The decimal digits of an integer, as a template prints a number
    that is an integer below [10^21] in absolute value (from there on the
    language prints an exponent, which is not modelled). *)
Definition numberToString (z : Z) : jsstring :=
  codes (pretty z).

Definition renderValue (v : queryValue) : jsstring :=
  match v with
  | QString s => s
  | QNumber z => numberToString z
  end.

Definition _buildQuery (object : list (jsstring * queryValue)) : jsstring :=
  FirebaseClient.joinWith (codes "&")
    (map (fun kv => fst kv ++ codes "=" ++ renderValue (snd kv)) object).

(** A string literal of the store inside a query: the text between two
    double quotes. *)
Definition quoted (s : jsstring) : jsstring := [34%N] ++ s ++ [34%N].

Definition roomDataQuery : jsstring :=
  _buildQuery
    [(codes "orderBy", QString (quoted (codes "$key")));
     (codes "startAt", QString (quoted (codes "chat~")));
     (codes "limitToLast", QNumber MAX_LIMIT)].

(** The comparator given to [sort] in [requestRoomData]. *)
Definition comparefn (a b : list (jsstring * json)) : bool :=
  match getProp (codes "type") b with
  | Some (JStr s) => bool_decide (s = codes "participant")
  | _ => false
  end.

(** [sort] applies [ToNumber] to what the comparator returns. *)
Definition sortCompare (a b : list (jsstring * json)) : Z :=
  if comparefn a b then 1 else 0.

(** [requestRoomData()]: the request, and the callback that orders the
    formatted records.  [Array.prototype.sort] belongs to the script
    engine and is a parameter here. *)
Definition requestRoomData (url : jsstring) : FirebaseClient.request :=
  FirebaseClient.get url (FirebaseClient.PathString []) roomDataQuery.

Definition requestRoomData_then
    (sort : (list (jsstring * json) -> list (jsstring * json) -> Z) ->
            list (list (jsstring * json)) -> list (list (jsstring * json)))
    (records : list (list (jsstring * json)))
  : list (list (jsstring * json)) :=
  sort sortCompare records.

(** [requestChat(startTime, endTime, limit)].  The object literal
    evaluates [startAt] before [endAt], so [makeId] runs twice, in that
    order, on the shared generator; an exception of either call leaves
    [requestChat] at once.  The three arguments are numbers with an
    integer value; [startTime - 1] and [endTime + 1] are computed on
    numbers, hence rounded. *)
Definition requestChat (url : jsstring) (g : option statics)
    (rnd1 rnd2 : nat -> Z) (startTime endTime limit : Z)
  : result FirebaseClient.request * option statics :=
  let (r1, g1) := makeId g rnd1 (Z.max 0 (roundDouble (startTime - 1))) in
  match r1 with
  | Throw e => (Throw e, g1)
  | Ok startId =>
      let (r2, g2) := makeId g1 rnd2 (roundDouble (endTime + 1)) in
      match r2 with
      | Throw e => (Throw e, g2)
      | Ok endId =>
          (Ok (FirebaseClient.get url (FirebaseClient.PathString [])
                 (_buildQuery
                    [(codes "format", QString (codes "export"));
                     (codes "orderBy", QString (quoted (codes "$key")));
                     (codes "startAt",
                      QString (quoted (codes "chat!" ++ startId)));
                     (codes "endAt",
                      QString (quoted (codes "chat!" ++ endId)));
                     (codes "limitToLast",
                      QNumber (if 0 <? limit then limit else MAX_LIMIT))])),
           g2)
      end
  end.

(** [_emit] repeats the text of [FirebaseClient.emit] on the server's own
    handler table. *)
Definition _emit {P U : Type} := @FirebaseClient.emit P U.

(** *** Formatting many records and the [put] listener *)

(** [Object.keys(records).map(key => this._formatRecord(key, records[key]))]:
    the members are formatted in order and the first exception ends the
    [map].  The members of [records] are given in insertion order, each
    name once; a name that is an array index would come first in
    [Object.keys], but such a name holds no [!] and makes the [map] throw
    wherever it stands. *)
Fixpoint formatAll (entries : list (jsstring * option (list (jsstring * json))))
  : result (list (list (jsstring * json))) :=
  match entries with
  | [] => Ok []
  | (key, record) :: r =>
      match _formatRecord key record with
      | Throw e => Throw e
      | Ok formatted =>
          match formatAll r with
          | Throw e => Throw e
          | Ok others => Ok (formatted :: others)
          end
      end
  end.

(** The callback that [_recordsFormatter] returns.  [records] is [None]
    for [null] and [undefined], and otherwise an object whose members are
    objects or [null]. *)
Definition _recordsFormatter
    (records : option (list (jsstring * option (list (jsstring * json)))))
  : result (list (list (jsstring * json))) :=
  match records with
  | None => Ok []
  | Some entries => formatAll entries
  end.

(** The listener that the constructor registers for [put]:
    [({ data, path }) => ...].  It returns nothing for the path [/];
    otherwise it formats [data] under the key [path.slice(1)] and hands
    the record to [_emit("update", ...)], unless the formatting throws. *)
Definition putListener (path : jsstring) (data : option (list (jsstring * json)))
  : option (result (jsstring * list (jsstring * json))) :=
  if bool_decide (path = codes "/") then None
  else
    let key := drop 1 path in
    match _formatRecord key data with
    | Throw e => Some (Throw e)
    | Ok record => Some (Ok (codes "update", record))
    end.

(** Calls of [makeId] one after the other at the same time [t], each
    with its own random draws. *)
Fixpoint makeIds (g : option statics) (draws : list (nat -> Z)) (t : Z)
  : list (result jsstring) * option statics :=
  match draws with
  | [] => ([], g)
  | rnd :: r =>
      let (res, g1) := makeId g rnd t in
      let (others, g2) := makeIds g1 r t in
      (res :: others, g2)
  end.

End LoopFirebaseServer.

(** ** Sorting in the script engine

    [Array.prototype.sort] is not part of the program.  The language only
    fixes its result when the comparator is consistent; otherwise the order
    is left to the engine.  Two usual algorithms for short arrays are given
    here; both look only at the sign of the comparator's result. *)

Module ArraySort.

Section Sorts.
Context {A : Type}.
Variable cmp : A -> A -> Z.

(** Linear insertion: the new element moves left past every element that
    compares greater.  The sorted part is kept in reverse. *)
Fixpoint sink (x : A) (sortedRev : list A) : list A :=
  match sortedRev with
  | [] => [x]
  | y :: r => if (0 <? cmp y x)%Z then y :: sink x r else x :: sortedRev
  end.

Definition insertionSort (l : list A) : list A :=
  rev (fold_left (fun acc x => sink x acc) l []).

(** Binary insertion: the place of the new element is found by halving
    the sorted part [sorted[left..right)]. *)
Fixpoint search (fuel : nat) (x : A) (sorted : list A) (left right : nat) : nat :=
  match fuel with
  | O => left
  | S fuel' =>
      if (left <? right)%nat then
        let mid := (left + (right - left) / 2)%nat in
        match sorted !! mid with
        | Some y =>
            if (cmp x y <? 0)%Z then search fuel' x sorted left mid
            else search fuel' x sorted (S mid) right
        | None => left
        end
      else left
  end.

Definition insertAt (sorted : list A) (x : A) : list A :=
  let k := search (S (length sorted)) x sorted 0 (length sorted) in
  take k sorted ++ x :: drop k sorted.

Definition binaryInsertionSort (l : list A) : list A :=
  fold_left insertAt l [].

(** A comparator is consistent on [l], in the sense the language requires
    of it, only if every element of [l] compares equal to itself. *)
Definition reflexiveOn (l : list A) : Prop :=
  Forall (fun a => cmp a a = 0%Z) l.

End Sorts.

End ArraySort.

(** ** Notions used in the statements *)

Module Notions.

Import LoopFirebaseServer.
Local Open Scope Z_scope.

(** Every draw of [Math.floor(Math.random() * 64)] lies in [0, 64). *)
Definition draws_ok (rnd : nat -> Z) : Prop :=
  forall i : nat, (i < 12)%nat -> 0 <= rnd i < 64.

(** The generator states that calls of [makeId] can produce, starting from
    the function object before its first call. *)
Inductive reachable : option statics -> Prop :=
| reachable_fresh : reachable None
| reachable_call g rnd time :
    reachable g -> draws_ok rnd -> reachable (snd (makeId g rnd time)).

(** The twelve suffix slots, as read by index. *)
Definition slots (g : option statics) : list (option jsnum) :=
  map (fun i : nat => lastRandChars (ensure_init g) !! Z.of_nat i) (seq 0 12).

(** Slots that all hold numbers. *)
Definition numeric (ds : list Z) : list (option jsnum) :=
  map (fun d => Some (Num d)) ds.

(** The character of the alphabet for a digit. *)
Definition digitChar (d : Z) : N := nth (Z.to_nat d) CHARS 0%N.

(** The alphabet is in increasing order of code units. *)
Definition alphabetSorted : bool :=
  forallb (fun i => forallb (fun j =>
      if (i <? j)%nat then (nth i CHARS 0 <? nth j CHARS 0)%N else true)
    (seq 0 64)) (seq 0 64).

(** The increment of a base-64 counter, least significant digit first:
    a digit 63 becomes 0 and the carry moves on, the first other digit is
    incremented. *)
Fixpoint succLE (ds : list Z) : list Z :=
  match ds with
  | [] => []
  | d :: r => if d =? 63 then 0 :: succLE r else (d + 1) :: r
  end.

(** The same on a big-endian counter: the scan starts from the last digit. *)
Definition counterSucc (ds : list Z) : list Z := rev (succLE (rev ds)).

(** The number a big-endian base-64 digit list stands for. *)
Definition counterValue (ds : list Z) : Z :=
  fold_left (fun acc d => acc * 64 + d) ds 0.

(** The [n] base-64 digits of [t], most significant first. *)
Fixpoint digitsBE (n : nat) (t : Z) : list Z :=
  match n with
  | O => []
  | S k => digitsBE k (t / 64) ++ [t mod 64]
  end.

(** The eight characters that stand for a timestamp. *)
Definition timeStamp (t : Z) : jsstring := map digitChar (digitsBE 8 t).

(** What a slot may hold in a reachable state. *)
Definition slotOk (v : option jsnum) : Prop :=
  match v with
  | Some (Num z) => 0 <= z < 64
  | _ => True
  end.

Definition wf (m : gmap Z jsnum) : Prop :=
  forall i : nat, (i < 12)%nat -> slotOk (m !! Z.of_nat i).

(** The slots [0 .. n-1] of an array. *)
Definition view (n : nat) (m : gmap Z jsnum) : list (option jsnum) :=
  map (fun i : nat => m !! Z.of_nat i) (seq 0 n).

(** The slots a returning call at time [t] leaves: the two branches of
    [if (duplicateTime)]. *)
Definition nextSlots (g : option statics) (rnd : nat -> Z) (t : Z) : gmap Z jsnum :=
  if t =? lastTime (ensure_init g)
  then increment (lastRandChars (ensure_init g))
  else redraw rnd (lastRandChars (ensure_init g)).

Definition inAlphabet (s : jsstring) : Prop :=
  Forall (fun c => In c CHARS) s.

Definition isThrow {A : Type} (r : result A) : Prop :=
  match r with
  | Throw _ => True
  | Ok _ => False
  end.

(** A stable partition that puts the records of type [participant] first. *)
Definition isParticipant (r : list (jsstring * json)) : bool :=
  match getProp (codes "type") r with
  | Some (JStr s) => bool_decide (s = codes "participant")
  | _ => false
  end.

Definition stablePartition (l : list (list (jsstring * json)))
  : list (list (jsstring * json)) :=
  filter (fun r => isParticipant r = true) l
  ++ filter (fun r => isParticipant r = false) l.

(** The composite key re-derived from the [type] and [id] fields of a
    record. *)
Definition keyOf (record : list (jsstring * json)) : option jsstring :=
  match getProp (codes "type") record, getProp (codes "id") record with
  | Some (JStr type), Some (JStr id) => Some (compositeKey type id)
  | _, _ => None
  end.

(** The errors among the reports of an event source, in order. *)
Fixpoint failures (rs : list FirebaseClient.report) : list nat :=
  match rs with
  | [] => []
  | FirebaseClient.Open :: r => failures r
  | FirebaseClient.Failure e :: r => e :: failures r
  end.

Section Emit.
Context {P U : Type}.
Variable call : nat -> P -> FirebaseClient.hub U -> FirebaseClient.hub U * option exn.

(** Handlers run one after the other on the same argument; the first
    exception ends the run. *)
Fixpoint runUntilThrow (l : list nat) (argument : P) (w : FirebaseClient.hub U)
    (calls : list (nat * P)) : @FirebaseClient.emitted P U :=
  match l with
  | [] => (w, calls, None)
  | callback :: r =>
      let (w', thrown) := call callback argument w in
      match thrown with
      | Some e => (w', calls ++ [(callback, argument)], Some e)
      | None => runUntilThrow r argument w' (calls ++ [(callback, argument)])
      end
  end.

(** Handlers isolated from one another: each of them runs, whatever the
    earlier ones threw. *)
Fixpoint runIsolated (l : list nat) (argument : P) (w : FirebaseClient.hub U)
    (calls : list (nat * P)) : FirebaseClient.hub U * list (nat * P) :=
  match l with
  | [] => (w, calls)
  | callback :: r =>
      runIsolated r argument (fst (call callback argument w))
        (calls ++ [(callback, argument)])
  end.

End Emit.

(** A key has the shape [type!id] that [_formatRecord] accepts. *)
Definition wellShaped (key type id : jsstring) : Prop :=
  key = compositeKey type id
  /\ type <> [] /\ ~ In bang type
  /\ id <> [] /\ (forall c, In c id -> isLineTerminator c = false).

(** The [error] notification for an error of the event source. *)
Definition errorNotice (e : nat) : jsstring * FirebaseClient.payload :=
  (codes "error", FirebaseClient.ErrorEvent e).

(** Every event source made so far is the current one or was closed
    with [close()], and the current one was not closed. *)
Definition oneSourceAtMost (s : FirebaseClient.sources) : Prop :=
  (forall x : nat, (x < FirebaseClient.made s)%nat ->
     FirebaseClient.current s = Some x \/ In x (FirebaseClient.shut s))
  /\ (forall x : nat, FirebaseClient.current s = Some x ->
        (x < FirebaseClient.made s)%nat /\ ~ In x (FirebaseClient.shut s))
  /\ (forall x : nat, In x (FirebaseClient.shut s) ->
        (x < FirebaseClient.made s)%nat).

(** Handlers that keep to the rule of [oneSourceAtMost] and do not
    connect when the client holds no source; they may call [close()], or
    [connect()] while a source is held. *)
Definition keepSources
    (handlers : jsstring -> FirebaseClient.payload -> FirebaseClient.sources
                -> FirebaseClient.sources * bool) : Prop :=
  forall eventName p s,
    oneSourceAtMost s ->
    oneSourceAtMost (fst (handlers eventName p s))
    /\ (FirebaseClient.current s = None ->
        FirebaseClient.current (fst (handlers eventName p s)) = None).

(** [parts.join("/")] spelled out: the first part, then every other part
    with a slash before it. *)
Definition joined (parts : list jsstring) : jsstring :=
  match parts with
  | [] => []
  | first :: others =>
      first ++ concat (map (fun part => FirebaseClient.slash :: part) others)
  end.

(** The double quote that surrounds a string of the store in a query. *)
Definition doubleQuote : jsstring := [34%N].

(** The integers that a number holds: those that rounding leaves alone,
    below the size at which a number becomes [Infinity]. *)
Definition isNumber (z : Z) : Prop :=
  roundDouble z = z /\ Z.abs z < 2 ^ 1024.

(** [CHARS.indexOf(c)] for a character of the alphabet. *)
Fixpoint indexIn (c : N) (s : jsstring) : Z :=
  match s with
  | [] => 0
  | x :: r => if (x =? c)%N then 0 else 1 + indexIn c r
  end.

(** The time that a time stamp stands for: its characters read as
    base-64 digits, most significant first. *)
Definition decodeStamp (stamp : jsstring) : Z :=
  fold_left (fun acc c => acc * 64 + indexIn c CHARS) stamp 0.

(** [indexIn] undoes [digitChar] on every digit. *)
Definition alphabetDecodes : bool :=
  forallb (fun i : nat => indexIn (nth i CHARS 0%N) CHARS =? Z.of_nat i) (seq 0 64).

End Notions.

(** ** Concrete handlers and records for the examples *)

Module Scenarios.

Import FirebaseClient LoopFirebaseServer.

(** Callbacks over a log of the callbacks that ran: callback 0 throws,
    every other callback writes its number to the log. *)
Definition logOrThrow (callback payload : nat) (w : hub (list nat))
  : hub (list nat) * option exn :=
  match callback with
  | O => (w, Some (UserExn 0))
  | _ => (Hub (_handlers w) (rest w ++ [callback]), None)
  end.

(** Callback 2 unregisters itself from [put] with [off] and then logs;
    every other callback only logs. *)
Definition selfRemoving (callback payload : nat) (w : hub (list nat))
  : hub (list nat) * option exn :=
  let w1 :=
    match callback with
    | 2%nat => fst (off (fun _ => false) (codes "put") 2 w)
    | _ => w
    end in
  (Hub (_handlers w1) (rest w1 ++ [callback]), None).

(** A record as [_formatRecord] returns it for a key and a stored
    timestamp. *)
Definition formatted (key : string) : list (jsstring * json) :=
  match _formatRecord (codes key) (Some [(codes "timestamp", JNum 1)]) with
  | Ok r => r
  | Throw _ => []
  end.

End Scenarios.

(** ** The identifier generator *)

Import LoopFirebaseServer Notions.

Section MakeId.

Local Open Scope Z_scope.

(** *** Strings *)

Lemma lex_compare_app_same (p a b : jsstring) :
  lex_compare (p ++ a) (p ++ b) = lex_compare a b.
Proof.
  induction p as [|x p IH]; simpl; [reflexivity|].
  rewrite N.compare_refl. exact IH.
Qed.

Lemma lex_compare_app_lt (a b x y : jsstring) :
  length a = length b ->
  lex_compare a b = Lt ->
  lex_compare (a ++ x) (b ++ y) = Lt.
Proof.
  revert b. induction a as [|c a IH]; intros [|d b] Hlen Hlt; simpl in *;
    try discriminate.
  destruct (N.compare c d); try discriminate; [|reflexivity].
  apply IH; [lia | assumption].
Qed.

(** *** The alphabet *)

Lemma CHARS_length : length CHARS = 64%nat.
Proof. reflexivity. Qed.

Lemma charAt_digit (d : Z) :
  0 <= d < 64 -> charAt CHARS d = [digitChar d].
Proof.
  intros Hd. unfold charAt, digitChar.
  destruct (Z.ltb_spec d 0) as [?|_]; [lia|].
  assert (Hlt : (Z.to_nat d < length CHARS)%nat) by (rewrite CHARS_length; lia).
  destruct (lookup_lt_is_Some_2 _ _ Hlt) as [c Hc].
  rewrite Hc. f_equal. symmetry. apply nth_lookup_Some with (d := 0%N) in Hc.
  exact Hc.
Qed.

Lemma digitChar_in (d : Z) : 0 <= d < 64 -> In (digitChar d) CHARS.
Proof.
  intros Hd. unfold digitChar. apply nth_In. rewrite CHARS_length. lia.
Qed.

Lemma digitChar_mono (a b : Z) :
  0 <= a -> a < b -> b < 64 -> (digitChar a < digitChar b)%N.
Proof.
  intros Ha Hab Hb.
  assert (Hs : alphabetSorted = true) by (vm_compute; reflexivity).
  unfold alphabetSorted in Hs. rewrite forallb_forall in Hs.
  specialize (Hs (Z.to_nat a)). rewrite forallb_forall in Hs.
  specialize (Hs ltac:(apply in_seq; lia) (Z.to_nat b) ltac:(apply in_seq; lia)).
  destruct (Nat.ltb_spec (Z.to_nat a) (Z.to_nat b)) as [_|?]; [|lia].
  apply N.ltb_lt. exact Hs.
Qed.

(** *** The time stamp *)

Lemma digitsBE_length (n : nat) (t : Z) : length (digitsBE n t) = n.
Proof.
  revert t. induction n as [|n IH]; intros t; simpl; [reflexivity|].
  rewrite length_app, IH. simpl. lia.
Qed.

Lemma digitsBE_range (n : nat) (t : Z) :
  Forall (fun d => 0 <= d < 64) (digitsBE n t).
Proof.
  revert t. induction n as [|n IH]; intros t; simpl; [constructor|].
  apply Forall_app. split; [apply IH|].
  constructor; [apply Z.mod_pos_bound; lia | constructor].
Qed.

Lemma stampLoop_rest (n : nat) (t : Z) (acc : list jsstring) :
  snd (stampLoop n t acc) = t / 64 ^ Z.of_nat n.
Proof.
  revert t acc. induction n as [|n IH]; intros t acc.
  - simpl. rewrite Z.div_1_r. reflexivity.
  - cbn [stampLoop]. rewrite IH, Nat2Z.inj_succ, Z.pow_succ_r by lia.
    rewrite Z.div_div by lia. reflexivity.
Qed.

Lemma stampLoop_chars (n : nat) (t : Z) (acc : list jsstring) :
  0 <= t ->
  fst (stampLoop n t acc)
  = map (fun d => [digitChar d]) (digitsBE n t) ++ acc.
Proof.
  revert t acc. induction n as [|n IH]; intros t acc Ht; [reflexivity|].
  cbn [stampLoop digitsBE]. rewrite IH by (apply Z.div_pos; lia).
  rewrite Z.rem_mod_nonneg by lia.
  rewrite charAt_digit by (apply Z.mod_pos_bound; lia).
  rewrite map_app, <- app_assoc. reflexivity.
Qed.

Lemma join_singletons (ds : list Z) :
  join (map (fun d => [digitChar d]) ds) = map digitChar ds.
Proof.
  unfold join. induction ds as [|d ds IH]; simpl; [reflexivity|].
  rewrite IH. reflexivity.
Qed.

Lemma timeStamp_length (t : Z) : length (timeStamp t) = 8%nat.
Proof. unfold timeStamp. rewrite length_map. apply digitsBE_length. Qed.

Lemma digits_order (n : nat) (t1 t2 : Z) :
  0 <= t1 -> t1 < t2 -> t2 < 64 ^ Z.of_nat n ->
  lex_compare (map digitChar (digitsBE n t1)) (map digitChar (digitsBE n t2))
  = Lt.
Proof.
  revert t1 t2. induction n as [|n IH]; intros t1 t2 H0 H12 Hn.
  - simpl in Hn. lia.
  - rewrite Nat2Z.inj_succ, Z.pow_succ_r in Hn by lia.
    cbn [digitsBE]. rewrite !map_app.
    pose proof (Z.div_mod t1 64 ltac:(lia)) as E1.
    pose proof (Z.div_mod t2 64 ltac:(lia)) as E2.
    pose proof (Z.mod_pos_bound t1 64 ltac:(lia)) as B1.
    pose proof (Z.mod_pos_bound t2 64 ltac:(lia)) as B2.
    destruct (Z.lt_ge_cases (t1 / 64) (t2 / 64)) as [Hlt|Hge].
    + apply lex_compare_app_lt.
      * rewrite !length_map, !digitsBE_length. reflexivity.
      * apply IH; [apply Z.div_pos; lia | exact Hlt |].
        apply Z.div_lt_upper_bound; lia.
    + assert (Heq : t1 / 64 = t2 / 64) by lia.
      rewrite Heq, lex_compare_app_same. simpl.
      assert (Hm : (digitChar (t1 mod 64) < digitChar (t2 mod 64))%N)
        by (apply digitChar_mono; lia).
      apply N.compare_lt_iff in Hm. rewrite Hm. reflexivity.
Qed.

(** *** What a returning call looks like *)

Lemma makeId_Ok_inv g rnd t id g' :
  makeId g rnd t = (Ok id, g') ->
  0 <= t < 64 ^ 8 /\
  exists m,
    g' = Some {| lastRandChars := m; lastTime := t |} /\
    id = timeStamp t ++ suffixChars m /\
    m = (if t =? lastTime (ensure_init g)
         then increment (lastRandChars (ensure_init g))
         else redraw rnd (lastRandChars (ensure_init g))).
Proof.
  unfold makeId. intros H.
  pose proof (stampLoop_rest 8 t []) as Hrest.
  destruct (stampLoop 8 t []) as [chars rest] eqn:Hst.
  simpl in Hrest. subst rest.
  destruct (Z.eqb_spec (t / 64 ^ Z.of_nat 8) 0) as [Hz|Hnz]; simpl in H;
    [|discriminate].
  apply Z.div_small_iff in Hz; [|lia].
  assert (Ht : 0 <= t < 64 ^ 8) by (change (Z.of_nat 8) with 8 in Hz; lia).
  split; [exact Ht|].
  pose proof (stampLoop_chars 8 t [] ltac:(lia)) as Hc.
  rewrite Hst in Hc. cbn [fst] in Hc. rewrite app_nil_r in Hc. subst chars.
  rewrite join_singletons in H.
  match type of H with
  | context [if negb ?c then _ else _] => destruct c; simpl in H
  end; [|discriminate].
  eexists. split; [|split; [|reflexivity]].
  - inversion H. reflexivity.
  - inversion H. reflexivity.
Qed.

(** *** The suffix slots *)

Lemma is63_true (v : option jsnum) : is63 v = true <-> v = Some (Num 63).
Proof.
  split; [|intros ->; reflexivity].
  destruct v as [[z|]|]; try discriminate.
  destruct z as [|p|p]; try discriminate.
  do 6 (destruct p as [p|p|]; try discriminate). reflexivity.
Qed.

Lemma is63_num (d : Z) : is63 (Some (Num d)) = (d =? 63).
Proof.
  destruct (Z.eqb_spec d 63) as [->|Hne]; [reflexivity|].
  destruct (is63 (Some (Num d))) eqn:E; [|reflexivity].
  apply is63_true in E. congruence.
Qed.

Lemma carryLoop_spec (n : nat) (m m' : gmap Z jsnum) (i : Z) :
  carryLoop n m = (i, m') ->
  -1 <= i < Z.of_nat n /\
  (0 <= i -> is63 (m !! i) = false) /\
  (forall j, i < j < Z.of_nat n -> m !! j = Some (Num 63) /\ m' !! j = Some (Num 0)) /\
  (forall j, ~ (i < j < Z.of_nat n) -> m' !! j = m !! j).
Proof.
  revert m m' i. induction n as [|n IH]; intros m m' i H.
  - simpl in H. inversion H; subst. repeat split; lia.
  - cbn [carryLoop] in H.
    destruct (is63 (m !! Z.of_nat n)) eqn:E.
    + apply IH in H. destruct H as (Hi & Hnot & Hhi & Hsame).
      apply is63_true in E.
      split; [lia|]. split; [|split].
      * intros Hi0. specialize (Hnot Hi0).
        rewrite lookup_insert_ne in Hnot by lia. exact Hnot.
      * intros j Hj. destruct (decide (j = Z.of_nat n)) as [->|Hne].
        -- split; [exact E|].
           rewrite Hsame by lia. apply lookup_insert_eq.
        -- destruct (Hhi j ltac:(lia)) as [H1 H2].
           rewrite lookup_insert_ne in H1 by lia. split; assumption.
      * intros j Hj. rewrite Hsame by lia. apply lookup_insert_ne. lia.
    + inversion H; subst. split; [lia|]. split; [intros _; exact E|].
      split; [intros; lia | reflexivity].
Qed.

Lemma redraw_lookup (rnd : nat -> Z) (l : list nat) (m : gmap Z jsnum) (k : nat) :
  fold_left (fun acc i => <[Z.of_nat i := Num (rnd i)]> acc) l m !! Z.of_nat k
  = if bool_decide (k ∈ l) then Some (Num (rnd k)) else m !! Z.of_nat k.
Proof.
  revert m. induction l as [|a l IH]; intros m; cbn [fold_left].
  - rewrite bool_decide_eq_false_2 by apply not_elem_of_nil. reflexivity.
  - rewrite IH. destruct (decide (k ∈ l)) as [Hin|Hout].
    + rewrite !bool_decide_eq_true_2
        by (assumption || (apply elem_of_cons; right; assumption)).
      reflexivity.
    + rewrite (bool_decide_eq_false_2 (k ∈ l)) by assumption.
      destruct (decide (a = k)) as [->|Hne].
      * rewrite bool_decide_eq_true_2 by (apply elem_of_cons; left; reflexivity).
        apply lookup_insert_eq.
      * rewrite bool_decide_eq_false_2
          by (intros [?|?]%elem_of_cons; congruence).
        apply lookup_insert_ne. lia.
Qed.

Lemma redraw_slot (rnd : nat -> Z) (m : gmap Z jsnum) (k : nat) :
  (k < 12)%nat -> redraw rnd m !! Z.of_nat k = Some (Num (rnd k)).
Proof.
  intros Hk. unfold redraw. rewrite redraw_lookup.
  rewrite bool_decide_eq_true_2; [reflexivity|]. apply elem_of_seq. lia.
Qed.

Lemma redraw_wf (rnd : nat -> Z) (m : gmap Z jsnum) :
  draws_ok rnd -> wf (redraw rnd m).
Proof.
  intros Hr i Hi. rewrite redraw_slot by assumption. simpl. apply Hr, Hi.
Qed.

Lemma increment_wf (m : gmap Z jsnum) : wf m -> wf (increment m).
Proof.
  intros Hwf k Hk. unfold increment.
  destruct (carryLoop 12 m) as [i m'] eqn:E.
  apply carryLoop_spec in E. destruct E as (Hi & Hnot & Hhi & Hsame).
  unfold postIncrement.
  destruct (decide (i = Z.of_nat k)) as [->|Hne].
  - rewrite lookup_insert_eq, Hsame by lia.
    specialize (Hnot ltac:(lia)). specialize (Hwf k Hk).
    destruct (m !! Z.of_nat k) as [[z|]|] eqn:Em; simpl; try exact I.
    rewrite is63_num in Hnot. simpl in Hwf.
    destruct (Z.eqb_spec z 63); [discriminate | lia].
  - rewrite lookup_insert_ne by assumption.
    destruct (decide (i < Z.of_nat k)) as [Hlt|Hge].
    + destruct (Hhi (Z.of_nat k) ltac:(lia)) as [_ ->]. simpl. lia.
    + rewrite Hsame by lia. apply Hwf, Hk.
Qed.

Lemma concat_singletons {A B : Type} (f : A -> list B) (g : A -> B) (l : list A) :
  (forall a, In a l -> f a = [g a]) ->
  concat (map f l) = map g l.
Proof.
  induction l as [|a l IH]; intros H; simpl; [reflexivity|].
  rewrite (H a) by (left; reflexivity). simpl. f_equal.
  apply IH. intros b Hb. apply H. right. exact Hb.
Qed.

Lemma slotOk_range (v : option jsnum) : slotOk v -> 0 <= to_integer v < 64.
Proof. destruct v as [[z|]|]; simpl; lia. Qed.

Lemma suffixChars_wf (m : gmap Z jsnum) :
  wf m ->
  suffixChars m
  = map (fun i : nat => digitChar (to_integer (m !! Z.of_nat i))) (seq 0 12).
Proof.
  intros Hwf. unfold suffixChars. apply concat_singletons.
  intros i Hi. apply in_seq in Hi.
  apply charAt_digit, slotOk_range, Hwf. lia.
Qed.

Lemma suffixChars_length (m : gmap Z jsnum) :
  wf m -> length (suffixChars m) = 12%nat.
Proof.
  intros Hwf. rewrite suffixChars_wf by assumption.
  rewrite length_map, length_seq. reflexivity.
Qed.

Lemma suffixChars_alphabet (m : gmap Z jsnum) :
  wf m -> inAlphabet (suffixChars m).
Proof.
  intros Hwf. rewrite suffixChars_wf by assumption.
  unfold inAlphabet. rewrite List.Forall_map. apply List.Forall_forall.
  intros i Hi. apply in_seq in Hi.
  apply digitChar_in, slotOk_range, Hwf. lia.
Qed.

Lemma timeStamp_alphabet (t : Z) : inAlphabet (timeStamp t).
Proof.
  unfold inAlphabet, timeStamp. rewrite List.Forall_map.
  eapply List.Forall_impl; [|apply digitsBE_range].
  intros d Hd. apply digitChar_in, Hd.
Qed.

(** *** What a call does on a well-formed state *)

Lemma nextSlots_wf g rnd t :
  wf (lastRandChars (ensure_init g)) -> draws_ok rnd -> wf (nextSlots g rnd t).
Proof.
  intros Hwf Hr. unfold nextSlots.
  destruct (t =? lastTime (ensure_init g));
    [apply increment_wf, Hwf | apply redraw_wf, Hr].
Qed.

Lemma makeId_returns_gen g rnd t :
  wf (nextSlots g rnd t) ->
  0 <= t < 64 ^ 8 ->
  makeId g rnd t
  = (Ok (timeStamp t ++ suffixChars (nextSlots g rnd t)),
     Some {| lastRandChars := nextSlots g rnd t; lastTime := t |}).
Proof.
  intros Hwf Ht. unfold makeId.
  pose proof (stampLoop_rest 8 t []) as Hrest.
  pose proof (stampLoop_chars 8 t [] ltac:(lia)) as Hc.
  destruct (stampLoop 8 t []) as [chars rest].
  cbn [fst snd] in Hrest, Hc. rewrite app_nil_r in Hc. subst chars rest.
  rewrite Z.div_small by (change (Z.of_nat 8) with 8; lia).
  cbn [Z.eqb negb]. rewrite join_singletons.
  fold (timeStamp t). fold (nextSlots g rnd t).
  rewrite length_app, timeStamp_length, suffixChars_length by assumption.
  reflexivity.
Qed.

Lemma makeId_returns g rnd t :
  wf (lastRandChars (ensure_init g)) -> draws_ok rnd ->
  0 <= t < 64 ^ 8 ->
  makeId g rnd t
  = (Ok (timeStamp t ++ suffixChars (nextSlots g rnd t)),
     Some {| lastRandChars := nextSlots g rnd t; lastTime := t |}).
Proof.
  intros Hwf Hr Ht. apply makeId_returns_gen; [|exact Ht].
  apply nextSlots_wf; assumption.
Qed.

Lemma makeId_throws g rnd t :
  t < 0 \/ 64 ^ 8 <= t ->
  makeId g rnd t
  = (Throw (Error "We should have converted the entire timestamp."),
     Some {| lastRandChars := lastRandChars (ensure_init g); lastTime := t |}).
Proof.
  intros Ht. unfold makeId.
  pose proof (stampLoop_rest 8 t []) as Hrest.
  destruct (stampLoop 8 t []) as [chars rest]. cbn [snd] in Hrest. subst rest.
  change (Z.of_nat 8) with 8.
  destruct (Z.eqb_spec (t / 64 ^ 8) 0) as [Hz|Hnz]; [|reflexivity].
  apply Z.div_small_iff in Hz; lia.
Qed.

Lemma reachable_wf g : reachable g -> wf (lastRandChars (ensure_init g)).
Proof.
  induction 1 as [|g rnd t Hg IH Hr].
  - intros i _. simpl. rewrite lookup_empty. exact I.
  - destruct (decide (0 <= t < 64 ^ 8)) as [Ht|Ht].
    + rewrite makeId_returns by assumption. simpl.
      apply nextSlots_wf; assumption.
    + rewrite makeId_throws by lia. simpl. exact IH.
Qed.

(** *** The suffix as a counter *)

Lemma view_S (n : nat) (m : gmap Z jsnum) :
  view (S n) m = view n m ++ [m !! Z.of_nat n].
Proof. unfold view. rewrite seq_S, map_app. reflexivity. Qed.

Lemma view_ext (n : nat) (m m' : gmap Z jsnum) :
  (forall i : nat, (i < n)%nat -> m !! Z.of_nat i = m' !! Z.of_nat i) ->
  view n m = view n m'.
Proof.
  intros H. unfold view. apply map_ext_in. intros i Hi.
  apply in_seq in Hi. apply H. lia.
Qed.

Lemma view_lookup (n : nat) (m : gmap Z jsnum) (i : nat) :
  (i < n)%nat -> view n m !! i = Some (m !! Z.of_nat i).
Proof.
  intros Hi. unfold view.
  change (map ?f ?l) with (f <$> l).
  rewrite list_lookup_fmap, lookup_seq_lt by assumption. reflexivity.
Qed.

Lemma numeric_lookup (ds : list Z) (i : nat) (d : Z) :
  ds !! i = Some d -> numeric ds !! i = Some (Some (Num d)).
Proof.
  intros H. unfold numeric. change (map ?f ?l) with (f <$> l).
  rewrite list_lookup_fmap, H. reflexivity.
Qed.

Lemma numeric_length (ds : list Z) : length (numeric ds) = length ds.
Proof. unfold numeric. apply length_map. Qed.

Lemma view_length (n : nat) (m : gmap Z jsnum) : length (view n m) = n.
Proof. unfold view. rewrite length_map. apply length_seq. Qed.

Lemma view_numeric_slot (n : nat) (m : gmap Z jsnum) (ds : list Z) (i : nat) (d : Z) :
  view n m = numeric ds -> ds !! i = Some d -> m !! Z.of_nat i = Some (Num d).
Proof.
  intros Hv Hd.
  assert (Hi : (i < n)%nat).
  { apply lookup_lt_Some in Hd.
    rewrite <- numeric_length, <- Hv, view_length in Hd. exact Hd. }
  apply numeric_lookup in Hd. rewrite <- Hv, view_lookup in Hd by assumption.
  congruence.
Qed.

Lemma wf_numeric_range (m : gmap Z jsnum) (ds : list Z) :
  wf m -> view 12 m = numeric ds -> Forall (fun d => 0 <= d < 64) ds.
Proof.
  intros Hwf Hv. apply Forall_lookup. intros i d Hd.
  pose proof (view_numeric_slot _ _ _ _ _ Hv Hd) as Hs.
  assert (Hi : (i < 12)%nat).
  { apply lookup_lt_Some in Hd.
    rewrite <- numeric_length, <- Hv, view_length in Hd. exact Hd. }
  specialize (Hwf i Hi). rewrite Hs in Hwf. exact Hwf.
Qed.

Lemma suffixChars_numeric (m : gmap Z jsnum) (ds : list Z) :
  view 12 m = numeric ds ->
  Forall (fun d => 0 <= d < 64) ds ->
  suffixChars m = map digitChar ds.
Proof.
  intros Hv Hr. unfold suffixChars.
  rewrite <- (map_map (fun i : nat => m !! Z.of_nat i)
                (fun v => charAt CHARS (to_integer v))).
  fold (view 12 m). rewrite Hv. unfold numeric. rewrite map_map.
  apply concat_singletons. intros d Hd. simpl.
  apply charAt_digit. rewrite List.Forall_forall in Hr. apply Hr, Hd.
Qed.

Lemma counterSucc_snoc (ds : list Z) (d : Z) :
  counterSucc (ds ++ [d])
  = if d =? 63 then counterSucc ds ++ [0] else ds ++ [d + 1].
Proof.
  unfold counterSucc. rewrite rev_unit. cbn [succLE].
  destruct (d =? 63); cbn [rev]; [reflexivity|].
  rewrite rev_involutive. reflexivity.
Qed.

Lemma counterSucc_length (ds : list Z) : length (counterSucc ds) = length ds.
Proof.
  induction ds as [|d ds IH] using rev_ind; [reflexivity|].
  rewrite counterSucc_snoc. destruct (d =? 63); rewrite !length_app, ?IH;
    reflexivity.
Qed.

Lemma counterValue_snoc (ds : list Z) (d : Z) :
  counterValue (ds ++ [d]) = counterValue ds * 64 + d.
Proof. unfold counterValue. rewrite fold_left_app. reflexivity. Qed.

Lemma counterSucc_value (ds : list Z) :
  Exists (fun d => d <> 63) ds ->
  counterValue (counterSucc ds) = counterValue ds + 1.
Proof.
  induction ds as [|d ds IH] using rev_ind; intros Hex.
  - inversion Hex.
  - rewrite counterSucc_snoc. destruct (Z.eqb_spec d 63) as [->|Hne].
    + apply Exists_app in Hex. destruct Hex as [Hex|Hex].
      * rewrite !counterValue_snoc, IH by assumption. lia.
      * inversion Hex as [? ? Hx|? ? Hx]; [congruence | inversion Hx].
    + rewrite !counterValue_snoc. lia.
Qed.

Lemma counterSucc_order (ds : list Z) :
  Forall (fun d => 0 <= d < 64) ds ->
  Exists (fun d => d <> 63) ds ->
  lex_compare (map digitChar ds) (map digitChar (counterSucc ds)) = Lt.
Proof.
  induction ds as [|d ds IH] using rev_ind; intros Hr Hex.
  - inversion Hex.
  - apply Forall_app in Hr. destruct Hr as [Hr Hd].
    inversion Hd as [|? ? Hd' _]; subst.
    rewrite counterSucc_snoc. destruct (Z.eqb_spec d 63) as [->|Hne].
    + apply Exists_app in Hex. destruct Hex as [Hex|Hex].
      * rewrite !map_app. apply lex_compare_app_lt.
        -- rewrite !length_map, counterSucc_length. reflexivity.
        -- apply IH; assumption.
      * inversion Hex as [? ? Hx|? ? Hx]; [congruence | inversion Hx].
    + rewrite !map_app, lex_compare_app_same. simpl.
      assert (Hm : (digitChar d < digitChar (d + 1))%N)
        by (apply digitChar_mono; lia).
      apply N.compare_lt_iff in Hm. rewrite Hm. reflexivity.
Qed.

Lemma increment_view (n : nat) (m m' : gmap Z jsnum) (ds : list Z) (i : Z) :
  view n m = numeric ds ->
  Exists (fun d => d <> 63) ds ->
  carryLoop n m = (i, m') ->
  view n (postIncrement i m') = numeric (counterSucc ds).
Proof.
  revert m m' ds i. induction n as [|n IH]; intros m m' ds i Hv Hex Hc.
  - destruct ds; [inversion Hex | discriminate].
  - rewrite view_S in Hv.
    destruct ds as [|d ds _] using rev_ind;
      [apply app_eq_nil in Hv; destruct Hv; discriminate|].
    unfold numeric in Hv. rewrite map_app in Hv. cbn [map] in Hv.
    apply app_inj_tail in Hv. destruct Hv as [Hv Hn]. fold (numeric ds) in Hv.
    cbn [carryLoop] in Hc. rewrite Hn, is63_num in Hc.
    rewrite counterSucc_snoc, view_S.
    destruct (Z.eqb_spec d 63) as [->|Hne].
    + apply Exists_app in Hex. destruct Hex as [Hex|Hex];
        [|inversion Hex as [? ? Hx|? ? Hx]; [congruence | inversion Hx]].
      pose proof (carryLoop_spec _ _ _ _ Hc) as (Hi & _ & _ & Hsame).
      assert (Hv' : view n (<[Z.of_nat n := Num 0]> m) = numeric ds).
      { rewrite <- Hv. apply view_ext. intros j Hj.
        apply lookup_insert_ne. lia. }
      rewrite (IH _ _ ds _ Hv' Hex Hc).
      unfold postIncrement. rewrite lookup_insert_ne by lia.
      rewrite Hsame by lia. rewrite lookup_insert_eq.
      unfold numeric. rewrite map_app. reflexivity.
    + inversion Hc; subst i m'. unfold postIncrement.
      rewrite lookup_insert_eq, Hn. cbn [to_number add1].
      unfold numeric. rewrite map_app. cbn [map]. f_equal.
      fold (numeric ds). rewrite <- Hv. apply view_ext. intros j Hj.
      apply lookup_insert_ne. lia.
Qed.

Lemma view_const (n : nat) (m : gmap Z jsnum) (c : Z) :
  (forall i : nat, (i < n)%nat -> m !! Z.of_nat i = Some (Num c)) ->
  view n m = numeric (replicate n c).
Proof.
  induction n as [|n IH]; intros H; [reflexivity|].
  rewrite view_S, replicate_S_end, IH, H by (intros; apply H; lia) || lia.
  unfold numeric. rewrite map_app. reflexivity.
Qed.

Lemma increment_overflow (m : gmap Z jsnum) :
  view 12 m = numeric (replicate 12 63) ->
  view 12 (increment m) = numeric (replicate 12 0)
  /\ increment m !! (-1) = Some (add1 (to_number (m !! (-1)))).
Proof.
  intros Hv. unfold increment.
  destruct (carryLoop 12 m) as [i m'] eqn:Hc.
  pose proof (carryLoop_spec _ _ _ _ Hc) as (Hi & Hnot & Hhi & Hsame).
  assert (Hall : forall j : nat, (j < 12)%nat -> m !! Z.of_nat j = Some (Num 63)).
  { intros j Hj. eapply view_numeric_slot; [exact Hv|].
    apply lookup_replicate_2. exact Hj. }
  assert (i = -1) as ->.
  { destruct (decide (0 <= i)) as [H0|?]; [|lia].
    specialize (Hnot H0). specialize (Hall (Z.to_nat i) ltac:(lia)).
    rewrite Z2Nat.id in Hall by lia. rewrite Hall in Hnot. discriminate. }
  unfold postIncrement. split.
  - apply view_const. intros j Hj. rewrite lookup_insert_ne by lia.
    apply Hhi. lia.
  - rewrite lookup_insert_eq, Hsame by lia. reflexivity.
Qed.

(** *** Identifiers of different milliseconds *)

(** C1.  For two timestamps [t1 < t2] of the encodable range, an
    identifier returned for [t1] sorts strictly before an identifier
    returned for [t2], whatever the generator states and the random draws
    of the two calls are; and on a reachable generator both calls do
    return an identifier. *)
Theorem makeId_orders_by_time (t1 t2 : Z) :
  0 <= t1 -> t1 < t2 -> t2 < 64 ^ 8 ->
  (forall g1 g2 rnd1 rnd2 id1 id2 g1' g2',
      makeId g1 rnd1 t1 = (Ok id1, g1') ->
      makeId g2 rnd2 t2 = (Ok id2, g2') ->
      str_lt id1 id2)
  /\
  (forall g rnd, reachable g -> draws_ok rnd ->
      (exists id g', makeId g rnd t1 = (Ok id, g')) /\
      (exists id g', makeId g rnd t2 = (Ok id, g'))).
Proof.
  intros H0 H12 H2. split.
  - intros g1 g2 rnd1 rnd2 id1 id2 g1' g2' E1 E2.
    apply makeId_Ok_inv in E1. destruct E1 as (_ & m1 & _ & -> & _).
    apply makeId_Ok_inv in E2. destruct E2 as (_ & m2 & _ & -> & _).
    unfold str_lt. apply lex_compare_app_lt.
    + rewrite !timeStamp_length. reflexivity.
    + unfold timeStamp. apply digits_order; assumption.
  - intros g rnd Hg Hr. apply reachable_wf in Hg.
    split; eexists; eexists; apply makeId_returns; (assumption || lia).
Qed.

Lemma makeId_orders_by_time_witness :
  str_lt (codes "000000Fd~~~~~~~~~~~~") (codes "000000Fe000000000000").
Proof.
  refine (proj1 (makeId_orders_by_time 1000 1001 _ _ _)
            None None (fun _ => 63) (fun _ => 0) _ _
            (snd (makeId None (fun _ => 63) 1000))
            (snd (makeId None (fun _ => 0) 1001)) _ _);
    [lia | lia | lia | vm_compute; reflexivity | vm_compute; reflexivity].
Defined.

(** *** Failure and shape of the result *)

(** C5.  On a reachable generator and for a non-negative timestamp,
    [makeId] throws exactly when the timestamp is at least [64^8]; below
    that bound it returns a string of 20 characters, all of them from
    [CHARS]. *)
Theorem makeId_fails_iff_out_of_range g rnd (t : Z) :
  reachable g -> draws_ok rnd -> 0 <= t ->
  (isThrow (fst (makeId g rnd t)) <-> 64 ^ 8 <= t)
  /\
  (t < 64 ^ 8 ->
   exists id, fst (makeId g rnd t) = Ok id
              /\ length id = 20%nat /\ inAlphabet id).
Proof.
  intros Hg Hr Ht. apply reachable_wf in Hg.
  destruct (Z.lt_ge_cases t (64 ^ 8)) as [Hlt|Hge].
  - rewrite makeId_returns by (assumption || lia). cbn [fst isThrow].
    split; [split; [tauto | lia]|]. intros _. eexists. split; [reflexivity|].
    split.
    + rewrite length_app, timeStamp_length, suffixChars_length; [reflexivity|].
      apply nextSlots_wf; assumption.
    + apply Forall_app. split; [apply timeStamp_alphabet|].
      apply suffixChars_alphabet, nextSlots_wf; assumption.
  - rewrite makeId_throws by lia. cbn [fst isThrow].
    split; [tauto | lia].
Qed.

Lemma makeId_fails_iff_out_of_range_witness :
  (isThrow (fst (makeId None (fun _ => 7) 1000)) <-> 64 ^ 8 <= 1000)
  /\
  (1000 < 64 ^ 8 ->
   exists id, fst (makeId None (fun _ => 7) 1000) = Ok id
              /\ length id = 20%nat /\ inAlphabet id).
Proof.
  apply (makeId_fails_iff_out_of_range None (fun _ => 7) 1000).
  - apply reachable_fresh.
  - intros i _. lia.
  - lia.
Defined.

(** *** Calls within one millisecond *)

(** C2 requires every further call within one millisecond to return a
    strictly greater identifier, its suffix being the previous one
    incremented.  The code misses two cases.  When the twelve slots are
    all 63, the next identifier of the same millisecond is smaller than
    the previous one.  When the first call on a new generator is at time
    0, which equals the initial [lastTime], that call already takes the
    increment branch on an empty array, and every further call at time 0
    returns the same identifier again. *)
Lemma makeId_same_time_not_increasing :
  (exists g1 g2,
      makeId None (fun _ => 63) 1000 = (Ok (codes "000000Fd~~~~~~~~~~~~"), g1)
      /\ makeId g1 (fun _ => 63) 1000 = (Ok (codes "000000Fd000000000000"), g2)
      /\ ~ str_lt (codes "000000Fd~~~~~~~~~~~~") (codes "000000Fd000000000000"))
  /\
  (exists g1 g2,
      makeId None (fun _ => 5) 0 = (Ok (codes "00000000000000000000"), g1)
      /\ makeId g1 (fun _ => 5) 0 = (Ok (codes "00000000000000000000"), g2)
      /\ ~ str_lt (codes "00000000000000000000") (codes "00000000000000000000")).
Proof.
  split.
  - exists (snd (makeId None (fun _ => 63) 1000)).
    exists (snd (makeId (snd (makeId None (fun _ => 63) 1000)) (fun _ => 63) 1000)).
    split; [vm_compute; reflexivity|]. split; [vm_compute; reflexivity|].
    vm_compute. discriminate.
  - exists (snd (makeId None (fun _ => 5) 0)).
    exists (snd (makeId (snd (makeId None (fun _ => 5) 0)) (fun _ => 5) 0)).
    split; [vm_compute; reflexivity|]. split; [vm_compute; reflexivity|].
    vm_compute. discriminate.
Qed.

(** In every other case the increment is the intended one.  Let a call at
    time [t] on a reachable generator have returned [idPrev], leaving
    twelve numeric slots [ds] that are not all 63.  Then the next call at
    the same [t] returns an identifier that is strictly greater, has the
    same eight-character time prefix, and whose suffix spells the slots
    [counterSucc ds]: the previous slots incremented as a big-endian
    base-64 counter, which is the previous counter value plus one. *)
Theorem makeId_same_time_increments g0 rnd0 rnd1 (t : Z) idPrev g1 (ds : list Z) :
  reachable g0 -> draws_ok rnd0 ->
  makeId g0 rnd0 t = (Ok idPrev, g1) ->
  slots g1 = numeric ds ->
  Exists (fun d => d <> 63) ds ->
  exists idNext g2,
    makeId g1 rnd1 t = (Ok idNext, g2)
    /\ str_lt idPrev idNext
    /\ take 8 idNext = take 8 idPrev
    /\ drop 8 idPrev = map digitChar ds
    /\ drop 8 idNext = map digitChar (counterSucc ds)
    /\ slots g2 = numeric (counterSucc ds)
    /\ counterValue (counterSucc ds) = counterValue ds + 1.
Proof.
  intros Hg Hr E Hs Hex.
  assert (Hg1 : reachable g1).
  { replace g1 with (snd (makeId g0 rnd0 t)) by (rewrite E; reflexivity).
    apply reachable_call; assumption. }
  apply reachable_wf in Hg1.
  apply makeId_Ok_inv in E. destruct E as (Ht & m1 & -> & -> & _).
  cbn [ensure_init lastRandChars] in Hg1. unfold slots in Hs.
  cbn [ensure_init lastRandChars] in Hs. fold (view 12 m1) in Hs.
  pose proof (wf_numeric_range _ _ Hg1 Hs) as Hrange.
  assert (Hnext : nextSlots (Some {| lastRandChars := m1; lastTime := t |}) rnd1 t
                  = increment m1).
  { unfold nextSlots. cbn [ensure_init lastTime lastRandChars].
    rewrite Z.eqb_refl. reflexivity. }
  assert (Hv : view 12 (increment m1) = numeric (counterSucc ds)).
  { unfold increment. destruct (carryLoop 12 m1) as [i m'] eqn:Hc.
    eapply increment_view; eassumption. }
  assert (Hrange' : Forall (fun d => 0 <= d < 64) (counterSucc ds)).
  { eapply wf_numeric_range; [apply increment_wf, Hg1 | exact Hv]. }
  eexists. eexists. split.
  { apply makeId_returns_gen; [|exact Ht].
    rewrite Hnext. apply increment_wf, Hg1. }
  rewrite Hnext.
  rewrite (suffixChars_numeric _ _ Hs Hrange).
  rewrite (suffixChars_numeric _ _ Hv Hrange').
  rewrite !(take_app_length' (timeStamp t)), !(drop_app_length' (timeStamp t))
    by (symmetry; apply timeStamp_length).
  repeat split.
  - unfold str_lt. rewrite lex_compare_app_same.
    apply counterSucc_order; assumption.
  - exact Hv.
  - apply counterSucc_value, Hex.
Qed.

Lemma makeId_same_time_increments_witness :
  exists idNext g2,
    makeId (snd (makeId None (fun i => Z.of_nat i + 52) 1000)) (fun _ => 0) 1000
    = (Ok idNext, g2)
    /\ str_lt (codes "000000Fdpqrstuvwxyz~") idNext
    /\ take 8 idNext = take 8 (codes "000000Fdpqrstuvwxyz~")
    /\ drop 8 (codes "000000Fdpqrstuvwxyz~")
       = map digitChar [52; 53; 54; 55; 56; 57; 58; 59; 60; 61; 62; 63]
    /\ drop 8 idNext
       = map digitChar (counterSucc [52; 53; 54; 55; 56; 57; 58; 59; 60; 61; 62; 63])
    /\ slots g2 = numeric (counterSucc [52; 53; 54; 55; 56; 57; 58; 59; 60; 61; 62; 63])
    /\ counterValue (counterSucc [52; 53; 54; 55; 56; 57; 58; 59; 60; 61; 62; 63])
       = counterValue [52; 53; 54; 55; 56; 57; 58; 59; 60; 61; 62; 63] + 1.
Proof.
  apply (makeId_same_time_increments None (fun i => Z.of_nat i + 52) (fun _ => 0)
           1000 (codes "000000Fdpqrstuvwxyz~")
           (snd (makeId None (fun i => Z.of_nat i + 52) 1000))
           [52; 53; 54; 55; 56; 57; 58; 59; 60; 61; 62; 63]).
  - apply reachable_fresh.
  - intros i Hi. lia.
  - vm_compute. reflexivity.
  - vm_compute. reflexivity.
  - apply Exists_cons_hd. lia.
Defined.

(** *** Exhausted suffix *)

Lemma numeric_wf (m : gmap Z jsnum) (ds : list Z) :
  view 12 m = numeric ds -> Forall (fun d => 0 <= d < 64) ds -> wf m.
Proof.
  intros Hv Hr i Hi.
  assert (Hlen : length ds = 12%nat)
    by (rewrite <- numeric_length, <- Hv; apply view_length).
  destruct (lookup_lt_is_Some_2 ds i ltac:(lia)) as [d Hd].
  rewrite (view_numeric_slot _ _ _ _ _ Hv Hd). simpl.
  rewrite Forall_lookup in Hr. exact (Hr i d Hd).
Qed.

(** C4 requires a fatal overflow when a call of the same millisecond
    finds all twelve slots at 63.  The code raises nothing there and
    returns an identifier, which sorts before the previous one. *)
Lemma makeId_overflow_returns :
  exists g1 g2,
    makeId None (fun _ => 63) 1000 = (Ok (codes "000000Fd~~~~~~~~~~~~"), g1)
    /\ slots g1 = numeric (replicate 12 63)
    /\ lastTime (ensure_init g1) = 1000
    /\ makeId g1 (fun _ => 63) 1000 = (Ok (codes "000000Fd000000000000"), g2)
    /\ ~ isThrow (fst (makeId g1 (fun _ => 63) 1000))
    /\ str_lt (codes "000000Fd000000000000") (codes "000000Fd~~~~~~~~~~~~")
    /\ lastRandChars (ensure_init g2) !! (-1) = Some NaN.
Proof.
  exists (snd (makeId None (fun _ => 63) 1000)).
  exists (snd (makeId (snd (makeId None (fun _ => 63) 1000)) (fun _ => 63) 1000)).
  repeat split; try (vm_compute; reflexivity).
  vm_compute. tauto.
Qed.

(** The same for every time and state: when a call finds the generator at
    the same millisecond with all twelve slots equal to 63, the slots wrap
    around to 0 and the call returns the time stamp followed by twelve
    characters [0].  The increment that finds no slot to bump lands on
    index -1 of the array. *)
Theorem makeId_overflow_wraps g rnd (t : Z) :
  0 <= t < 64 ^ 8 ->
  lastTime (ensure_init g) = t ->
  slots g = numeric (replicate 12 63) ->
  exists g',
    makeId g rnd t = (Ok (timeStamp t ++ codes "000000000000"), g')
    /\ slots g' = numeric (replicate 12 0)
    /\ lastTime (ensure_init g') = t
    /\ lastRandChars (ensure_init g') !! (-1)
       = Some (add1 (to_number (lastRandChars (ensure_init g) !! (-1)))).
Proof.
  intros Ht Hlast Hs. unfold slots in Hs. fold (view 12 (lastRandChars (ensure_init g))) in Hs.
  destruct (increment_overflow _ Hs) as [Hv Hneg].
  assert (Hnext : nextSlots g rnd t = increment (lastRandChars (ensure_init g))).
  { unfold nextSlots. rewrite Hlast, Z.eqb_refl. reflexivity. }
  assert (Hzero : Forall (fun d => 0 <= d < 64) (replicate 12 0))
    by (apply Forall_replicate; lia).
  eexists. split; [|split; [|split]].
  - rewrite makeId_returns_gen; [|rewrite Hnext; eapply numeric_wf; eassumption|exact Ht].
    rewrite Hnext, (suffixChars_numeric _ _ Hv Hzero). reflexivity.
  - exact Hv.
  - reflexivity.
  - exact Hneg.
Qed.

Lemma makeId_overflow_wraps_witness :
  exists g',
    makeId (snd (makeId None (fun _ => 63) 1000)) (fun _ => 9) 1000
    = (Ok (timeStamp 1000 ++ codes "000000000000"), g')
    /\ slots g' = numeric (replicate 12 0)
    /\ lastTime (ensure_init g') = 1000
    /\ lastRandChars (ensure_init g') !! (-1)
       = Some (add1 (to_number
            (lastRandChars (ensure_init (snd (makeId None (fun _ => 63) 1000)))
               !! (-1)))).
Proof.
  apply (makeId_overflow_wraps (snd (makeId None (fun _ => 63) 1000))
           (fun _ => 9) 1000).
  - lia.
  - vm_compute. reflexivity.
  - vm_compute. reflexivity.
Defined.

(** *** [requestChat] and the shared generator *)

Lemma redraw_slots (rnd : nat -> Z) (m : gmap Z jsnum) :
  view 12 (redraw rnd m) = numeric (map rnd (seq 0 12)).
Proof.
  unfold view, numeric. rewrite map_map. apply map_ext_in.
  intros i Hi. apply in_seq in Hi. apply redraw_slot. lia.
Qed.

End MakeId.

(** ** The handler table *)

Section EmitFacts.

Import FirebaseClient.

Context {P U : Type}.
Variable inherited : jsstring -> bool.
Variable call : nat -> P -> hub U -> hub U * option exn.

Lemma emitLoop_runs (eventName : jsstring) (argument : P) (l : list nat) :
  (forall cb p w, _handlers (fst (call cb p w)) !! eventName
                  = _handlers w !! eventName) ->
  forall fuel i w calls,
    _handlers w !! eventName = Some l ->
    (length l - i < fuel)%nat ->
    emitLoop call fuel eventName argument i w calls
    = Some (runUntilThrow call (drop i l) argument w calls).
Proof.
  intros Hframe. induction fuel as [|fuel IH]; intros i w calls Hl Hfuel; [lia|].
  cbn [emitLoop]. rewrite Hl. change (default [] (Some l)) with l.
  destruct (l !! i) as [cb|] eqn:Hi.
  - rewrite (drop_S _ _ _ Hi). cbn [runUntilThrow].
    pose proof (Hframe cb argument w) as Hf.
    destruct (call cb argument w) as [w' thrown]. cbn [fst] in Hf.
    destruct thrown; [reflexivity|].
    apply IH; [rewrite Hf; exact Hl|].
    apply lookup_lt_Some in Hi. lia.
  - apply lookup_ge_None in Hi. rewrite drop_ge by exact Hi. reflexivity.
Qed.

Lemma runUntilThrow_calls (argument : P) (l : list nat) :
  forall w calls,
    exists k,
      snd (fst (runUntilThrow call l argument w calls))
      = calls ++ map (fun cb => (cb, argument)) (take k l)
      /\ (snd (runUntilThrow call l argument w calls) = None -> k = length l).
Proof.
  induction l as [|cb l IH]; intros w calls.
  - exists 0%nat. simpl. rewrite app_nil_r. auto.
  - cbn [runUntilThrow]. destruct (call cb argument w) as [w' [e|]].
    + exists 1%nat. simpl. split; [reflexivity | discriminate].
    + destruct (IH w' (calls ++ [(cb, argument)])) as (k & Hk & Hnone).
      exists (S k). rewrite Hk, <- app_assoc. simpl.
      split; [reflexivity|]. intros H. rewrite (Hnone H). reflexivity.
Qed.

(** C3, amended.  For an event with a registered handler list, [on] puts a
    new handler at the end of the list, and [emit] calls the handlers of
    the list in that order, each with the one argument, until one of them
    throws: the exception leaves [emit] and the handlers after it are not
    called.  This holds when no handler changes the list of that event
    while [emit] runs. *)
Theorem emit_runs_until_throw (eventName : jsstring) (argument : P)
    (w : hub U) (l : list nat) (fuel : nat) :
  _handlers w !! eventName = Some l ->
  (forall cb p w', _handlers (fst (call cb p w')) !! eventName
                   = _handlers w' !! eventName) ->
  (length l < fuel)%nat ->
  (forall cb, _handlers (fst (on inherited eventName cb w)) !! eventName
              = Some (l ++ [cb]))
  /\ emit inherited call fuel eventName argument w
     = Some (runUntilThrow call l argument w [])
  /\ LoopFirebaseServer._emit inherited call fuel eventName argument w
     = Some (runUntilThrow call l argument w [])
  /\ exists k,
       snd (fst (runUntilThrow call l argument w []))
       = map (fun cb => (cb, argument)) (take k l)
       /\ (snd (runUntilThrow call l argument w []) = None -> k = length l).
Proof.
  intros Hl Hframe Hfuel.
  assert (He : emit inherited call fuel eventName argument w
               = Some (runUntilThrow call l argument w [])).
  { unfold emit. rewrite Hl.
    rewrite (emitLoop_runs eventName argument l Hframe) by (assumption || lia).
    reflexivity. }
  split; [|split; [exact He|split; [exact He|]]].
  - intros cb. unfold on. rewrite Hl. cbn [fst _handlers].
    apply lookup_insert_eq.
  - destruct (runUntilThrow_calls argument l w []) as (k & Hk & Hnone).
    exists k. split; assumption.
Qed.

End EmitFacts.

Section EmitExamples.

Import FirebaseClient Scenarios.

(** C3, as the specification states it, fails.  With the handlers 0 and
    1 registered in that order and handler 0 throwing, [emit] never calls
    handler 1, whereas isolated handlers would both run.  And when the
    first handler unregisters itself, [emit] skips the one behind it
    although it stays registered. *)
Lemma emit_not_isolated :
  (let w := Hub {[ codes "put" := [0; 1]%nat ]} [] in
   emit (fun _ => false) logOrThrow 5 (codes "put") 7%nat w
   = Some (w, [(0, 7)]%nat, Some (UserExn 0))
   /\ snd (runIsolated logOrThrow [0; 1]%nat 7%nat w []) = [(0, 7); (1, 7)]%nat)
  /\
  (let w := Hub {[ codes "put" := [2; 1]%nat ]} [] in
   emit (fun _ => false) selfRemoving 5 (codes "put") 7%nat w
   = Some (Hub {[ codes "put" := [1]%nat ]} [2%nat], [(2, 7)]%nat, None)).
Proof.
  split; [split|]; vm_compute; reflexivity.
Qed.

Lemma emit_runs_until_throw_witness :
  let w := Hub {[ codes "put" := [3; 0; 1]%nat ]} [] in
  (forall cb, _handlers (fst (on (fun _ => false) (codes "put") cb w)) !! codes "put"
              = Some ([3; 0; 1]%nat ++ [cb]))
  /\ emit (fun _ => false) logOrThrow 4 (codes "put") 7%nat w
     = Some (runUntilThrow logOrThrow [3; 0; 1]%nat 7%nat w [])
  /\ LoopFirebaseServer._emit (fun _ => false) logOrThrow 4 (codes "put") 7%nat w
     = Some (runUntilThrow logOrThrow [3; 0; 1]%nat 7%nat w [])
  /\ exists k,
       snd (fst (runUntilThrow logOrThrow [3; 0; 1]%nat 7%nat w []))
       = map (fun cb => (cb, 7%nat)) (take k [3; 0; 1]%nat)
       /\ (snd (runUntilThrow logOrThrow [3; 0; 1]%nat 7%nat w []) = None
           -> k = length [3; 0; 1]%nat).
Proof.
  intros w.
  apply (emit_runs_until_throw (fun _ => false) logOrThrow (codes "put") 7%nat
           w [3; 0; 1]%nat 4).
  - vm_compute. reflexivity.
  - intros cb p w'. destruct cb; reflexivity.
  - simpl. lia.
Defined.

End EmitExamples.

(** ** The event stream *)

Section ConnectFacts.

Import FirebaseClient.

Lemma deliverAll_snoc (rs : list report) (r : report) (c : client) :
  deliverAll (rs ++ [r]) c = deliver (deliverAll rs c) r.
Proof. unfold deliverAll. rewrite fold_left_app. reflexivity. Qed.

Lemma failures_snoc (rs : list report) (r : report) :
  failures (rs ++ [r])
  = failures rs ++ match r with Open => [] | Failure e => [e] end.
Proof.
  induction rs as [|[|e] rs IH]; simpl.
  - destruct r; reflexivity.
  - exact IH.
  - rewrite IH. reflexivity.
Qed.

(** While no [open] has been reported, the flag is unset, nothing has
    been emitted, and the promise is pending or rejected with the first
    error reported. *)
Lemma before_open (c : client) (rs : list report) :
  ~ In Open rs ->
  let c' := deliverAll rs (connect c) in
  resolved c' = false
  /\ emits c' = emits (connect c)
  /\ _sse c' = _sse (connect c)
  /\ connectResult c'
     = match failures rs with
       | [] => Pending
       | e :: _ => Rejected e
       end.
Proof.
  induction rs as [|r rs IH] using rev_ind; intros Hno.
  - simpl. repeat split; reflexivity.
  - rewrite in_app_iff in Hno. simpl in Hno.
    destruct r as [|e]; [tauto|].
    destruct (IH ltac:(tauto)) as (Hres & Hem & Hsse & Hpr).
    rewrite deliverAll_snoc, failures_snoc. cbn [deliver]. unfold onerror.
    rewrite Hres. cbn [negb]. unfold settle. rewrite Hpr.
    destruct (failures rs) as [|e0 es]; cbn; repeat split; assumption.
Qed.

(** Once [open] has been reported the flag stays set, and the event
    source stays the one that [connect] installed. *)
Lemma after_open (c : client) (rs : list report) :
  In Open rs ->
  let c' := deliverAll rs (connect c) in
  resolved c' = true /\ _sse c' = _sse (connect c).
Proof.
  induction rs as [|r rs IH] using rev_ind; intros Hin; [destruct Hin|].
  rewrite deliverAll_snoc.
  destruct r as [|e].
  - cbn [deliver]. unfold onopen, settle. cbn.
    split; [destruct (connectResult _); reflexivity|].
    destruct (in_dec (fun a b : report => ltac:(decide equality; apply Nat.eq_dec)) Open rs)
      as [Hi|Hn].
    + destruct (IH Hi) as [_ Hs]. destruct (connectResult _); exact Hs.
    + destruct (before_open c rs Hn) as (_ & _ & Hs & _).
      destruct (connectResult _); exact Hs.
  - rewrite in_app_iff in Hin. simpl in Hin.
    destruct (IH ltac:(intuition discriminate)) as [Hres Hs].
    cbn [deliver]. unfold onerror. rewrite Hres. cbn [negb].
    split; [exact Hres | exact Hs].
Qed.

(** A settled promise keeps its state, whatever is reported later. *)
Lemma settled_stays (rs : list report) (c : client) :
  connectResult c <> Pending ->
  connectResult (deliverAll rs c) = connectResult c.
Proof.
  revert c. induction rs as [|r rs IH]; intros c Hc; [reflexivity|].
  cbn [deliverAll fold_left]. fold (deliverAll rs (deliver c r)).
  assert (Hstep : connectResult (deliver c r) = connectResult c).
  { destruct r as [|e]; cbn [deliver]; unfold onopen, onerror, settle, notify.
    - cbn. destruct (connectResult c) eqn:E; cbn; congruence.
    - destruct (resolved c); cbn; [reflexivity|].
      destruct (connectResult c) eqn:E; cbn; congruence. }
  rewrite IH by (rewrite Hstep; exact Hc). exact Hstep.
Qed.

(** C6.  Let [connect()] be followed by the reports [pre] of its event
    source and then by an error.  If no [open] is among [pre], the promise
    of [connect()] is rejected for good, with this error when it is the
    first one reported (a promise keeps its first rejection), and nothing
    is emitted.  If [open] is among [pre], the promise is left as it was,
    the error is emitted as an [error] notification, and the event source
    stays in place. *)
Theorem connect_error_split (c : client) (pre : list report) (error : nat) :
  let before := deliverAll pre (connect c) in
  let after := onerror error before in
  (~ In Open pre ->
     connectResult after = Rejected (hd error (failures pre))
     /\ (failures pre = [] -> connectResult after = Rejected error)
     /\ (forall later, connectResult (deliverAll later after) = connectResult after)
     /\ emits after = emits before)
  /\
  (In Open pre ->
     connectResult after = connectResult before
     /\ emits after = emits before ++ [(codes "error", ErrorEvent error)]
     /\ _sse after = _sse before
     /\ exists source, _sse after = Some source).
Proof.
  intros before after. split.
  - intros Hno. destruct (before_open c pre Hno) as (Hres & _ & _ & Hpr).
    fold before in Hres, Hpr.
    assert (Hrej : connectResult after = Rejected (hd error (failures pre))).
    { unfold after, onerror. rewrite Hres. cbn [negb]. unfold settle.
      rewrite Hpr. destruct (failures pre); reflexivity || assumption. }
    split; [exact Hrej|]. split; [|split].
    + intros Hnil. rewrite Hrej, Hnil. reflexivity.
    + intros later. apply settled_stays. rewrite Hrej. discriminate.
    + unfold after, onerror. rewrite Hres. cbn [negb]. unfold settle.
      destruct (connectResult before); reflexivity.
  - intros Hin. destruct (after_open c pre Hin) as [Hres Hsse].
    fold before in Hres, Hsse. unfold after, onerror. rewrite Hres.
    cbn [negb]. unfold notify. cbn. repeat split.
    rewrite Hsse. unfold connect. cbn. eexists. reflexivity.
Qed.

End ConnectFacts.

Example connect_error_scenarios :
  FirebaseClient.connectResult
    (FirebaseClient.deliverAll [FirebaseClient.Failure 4]
       (FirebaseClient.connect FirebaseClient.newClient))
  = FirebaseClient.Rejected 4
  /\
  (let c := FirebaseClient.deliverAll
              [FirebaseClient.Open; FirebaseClient.Failure 4]
              (FirebaseClient.connect FirebaseClient.newClient) in
   FirebaseClient.connectResult c = FirebaseClient.Fulfilled
   /\ FirebaseClient.emits c = [(codes "error", FirebaseClient.ErrorEvent 4)]
   /\ FirebaseClient._sse c = Some 0%nat).
Proof. repeat split. Qed.

(** ** Slashes in addresses *)

Section UrlFacts.

Import FirebaseClient.

Lemma stripLeading_slashes (n : nat) (s : jsstring) :
  stripLeading (replicate n slash ++ s) = stripLeading s.
Proof.
  induction n as [|n IH]; [reflexivity|].
  cbn [replicate app stripLeading]. rewrite N.eqb_refl. exact IH.
Qed.

Lemma rev_slashes (n : nat) : rev (replicate n slash) = replicate n slash.
Proof.
  induction n as [|n IH]; [reflexivity|].
  cbn [replicate rev]. rewrite IH. symmetry. apply replicate_S_end.
Qed.

Lemma stripTrailing_slashes (n : nat) (s : jsstring) :
  stripTrailing (s ++ replicate n slash) = stripTrailing s.
Proof.
  unfold stripTrailing. rewrite rev_app_distr, rev_slashes, stripLeading_slashes.
  reflexivity.
Qed.

Lemma stripBoth_slashes (n : nat) (s : jsstring) :
  stripTrailing (stripLeading (s ++ replicate n slash))
  = stripTrailing (stripLeading s).
Proof.
  induction s as [|c s IH].
  - cbn [app]. rewrite <- (app_nil_r (replicate n slash)), stripLeading_slashes.
    reflexivity.
  - cbn [app stripLeading]. destruct (N.eqb c slash); [exact IH|].
    apply (stripTrailing_slashes n (c :: s)).
Qed.

Lemma stripLeading_head (s : jsstring) : head (stripLeading s) <> Some slash.
Proof.
  induction s as [|c s IH]; [discriminate|].
  cbn [stripLeading]. destruct (N.eqb_spec c slash) as [->|Hne]; [exact IH|].
  cbn. congruence.
Qed.

Lemma stripLeading_suffix (s : jsstring) :
  exists n, s = replicate n slash ++ stripLeading s.
Proof.
  induction s as [|c s [n IH]]; [exists 0%nat; reflexivity|].
  cbn [stripLeading]. destruct (N.eqb_spec c slash) as [->|Hne].
  - exists (S n). cbn [replicate app]. f_equal. exact IH.
  - exists 0%nat. reflexivity.
Qed.

Lemma stripTrailing_prefix (s : jsstring) :
  exists n, s = stripTrailing s ++ replicate n slash.
Proof.
  unfold stripTrailing. destruct (stripLeading_suffix (rev s)) as [n Hn].
  exists n. rewrite <- (rev_involutive s) at 1. rewrite Hn at 1.
  rewrite rev_app_distr, rev_slashes. reflexivity.
Qed.

Lemma stripTrailing_end (s r : jsstring) : stripTrailing s <> r ++ [slash].
Proof.
  unfold stripTrailing. intros H.
  apply (f_equal (@rev N)) in H. rewrite rev_involutive, rev_unit in H.
  apply (stripLeading_head (rev s)). rewrite H. reflexivity.
Qed.

Lemma stripLeading_id (s : jsstring) :
  head s <> Some slash -> stripLeading s = s.
Proof.
  destruct s as [|c s]; [reflexivity|]. intros H. cbn [stripLeading].
  destruct (N.eqb_spec c slash) as [->|Hne]; [|reflexivity].
  exfalso. apply H. reflexivity.
Qed.

Lemma stripTrailing_id (s : jsstring) :
  last s <> Some slash -> stripTrailing s = s.
Proof.
  intros H. unfold stripTrailing.
  destruct s as [|c s] using rev_ind; [reflexivity|].
  rewrite last_snoc in H. rewrite rev_unit.
  rewrite stripLeading_id by (cbn; exact H).
  cbn [rev]. rewrite rev_involutive. reflexivity.
Qed.

(** Every string is a string that does not end with a slash followed by
    slashes, and slashes followed by a string that does not begin with
    one. *)
Lemma trailing_slashes_split (s : jsstring) :
  exists u n, s = u ++ replicate n slash /\ last u <> Some slash.
Proof.
  destruct (stripTrailing_prefix s) as [n Hn].
  exists (stripTrailing s), n. split; [exact Hn|].
  intros H. apply last_Some in H. destruct H as [r Hr].
  exact (stripTrailing_end s r Hr).
Qed.

Lemma leading_slashes_split (s : jsstring) :
  exists n p, s = replicate n slash ++ p /\ head p <> Some slash.
Proof.
  destruct (stripLeading_suffix s) as [n Hn].
  exists n, (stripLeading s). split; [exact Hn | apply stripLeading_head].
Qed.

(** The base address and the path with any number of slashes around
    them. *)
Lemma makeUrl_literal (u p : jsstring) (n a b : nat) :
  last u <> Some slash -> head p <> Some slash -> last p <> Some slash ->
  _makeUrl (u ++ replicate n slash)
    (PathString (replicate a slash ++ p ++ replicate b slash))
  = u ++ [slash] ++ p ++ codes ".json".
Proof.
  intros Hu Hh Hl. unfold _makeUrl, baseUrl.
  rewrite stripTrailing_slashes, stripLeading_slashes, stripBoth_slashes.
  rewrite (stripTrailing_id u Hu), (stripLeading_id p Hh), (stripTrailing_id p Hl).
  reflexivity.
Qed.

End UrlFacts.

(** ** Writes and record formatting *)

Section StoreFacts.

Import FirebaseClient.

(** C7.  [delete(type, id)] is [update(type, id, undefined)].  It sends a
    [PUT] to the address of the key [type!id], spelled out here for a
    base address, a type and an id with any number of slashes around
    them: the base, a slash, the type, [!], the id and [.json].  Every
    write of that type and id goes to the same address.  The body of the
    delete is the timestamp marker alone, with no [value] member, where a
    write carries its value; and the answer is formatted with the key
    [type!id] in both cases. *)
Theorem delete_is_update_without_value (u ty i : jsstring) (n a b : nat) :
  last u <> Some slash -> head ty <> Some slash -> last i <> Some slash ->
  LoopFirebaseServer.delete (u ++ replicate n slash)
    (replicate a slash ++ ty) (i ++ replicate b slash)
  = update (u ++ replicate n slash)
      (replicate a slash ++ ty) (i ++ replicate b slash) None
  /\ sent (LoopFirebaseServer.delete (u ++ replicate n slash)
             (replicate a slash ++ ty) (i ++ replicate b slash))
     = Ok {| method := "PUT";
             target := u ++ [slash] ++ ty ++ [bang] ++ i ++ codes ".json";
             body := Some (JObj [(codes "timestamp",
                                  JObj [(codes ".sv", JStr (codes "timestamp"))])]) |}
  /\ (forall value,
        sent (update (u ++ replicate n slash)
                (replicate a slash ++ ty) (i ++ replicate b slash) (Some value))
        = Ok {| method := "PUT";
                target := u ++ [slash] ++ ty ++ [bang] ++ i ++ codes ".json";
                body := Some (JObj [(codes "timestamp",
                                     JObj [(codes ".sv", JStr (codes "timestamp"))]);
                                    (codes "value", value)]) |})
  /\ (forall value answer,
        whenDone (LoopFirebaseServer.delete (u ++ replicate n slash)
                    (replicate a slash ++ ty) (i ++ replicate b slash)) answer
        = _formatRecord ((replicate a slash ++ ty) ++ [bang]
                         ++ (i ++ replicate b slash)) answer
        /\ whenDone (update (u ++ replicate n slash)
                       (replicate a slash ++ ty) (i ++ replicate b slash) value)
             answer
           = _formatRecord ((replicate a slash ++ ty) ++ [bang]
                            ++ (i ++ replicate b slash)) answer).
Proof.
  intros Hu Hty Hi.
  assert (Hurl : _makeUrl (u ++ replicate n slash)
                   (PathString (compositeKey (replicate a slash ++ ty)
                                  (i ++ replicate b slash)))
                 = u ++ [slash] ++ ty ++ [bang] ++ i ++ codes ".json").
  { unfold compositeKey.
    replace ((replicate a slash ++ ty) ++ [bang] ++ i ++ replicate b slash)
      with (replicate a slash ++ (ty ++ [bang] ++ i) ++ replicate b slash)
      by (rewrite <- !app_assoc; reflexivity).
    rewrite makeUrl_literal.
    - rewrite <- !app_assoc. reflexivity.
    - exact Hu.
    - destruct ty as [|c ty]; [cbn; unfold bang, slash; congruence | exact Hty].
    - rewrite !app_assoc.
      destruct i as [|c i] using rev_ind.
      + rewrite app_nil_r, last_snoc. unfold bang, slash. congruence.
      + rewrite app_assoc, last_snoc. rewrite last_snoc in Hi. exact Hi. }
  split; [reflexivity|]. split; [|split].
  - unfold LoopFirebaseServer.delete, update, put, _update.
    cbn [sent String.eqb Ascii.eqb Bool.eqb andb isNull negb writeBody].
    rewrite Hurl. reflexivity.
  - intros value. unfold update, put, _update.
    cbn [sent String.eqb Ascii.eqb Bool.eqb andb isNull negb writeBody].
    rewrite Hurl. reflexivity.
  - intros value answer. split; reflexivity.
Qed.

Lemma delete_is_update_without_value_witness :
  sent (LoopFirebaseServer.delete (codes "https://db.example/app//")
          (codes "/chat") (codes "-KabcXYZ/"))
  = Ok {| method := "PUT";
          target := codes "https://db.example/app/chat!-KabcXYZ.json";
          body := Some (JObj [(codes "timestamp",
                               JObj [(codes ".sv", JStr (codes "timestamp"))])]) |}.
Proof.
  apply (delete_is_update_without_value (codes "https://db.example/app")
           (codes "chat") (codes "-KabcXYZ") 2 1 1);
    vm_compute; discriminate.
Defined.

Lemma spanNotBang_key (type rest : jsstring) :
  ~ In bang type ->
  spanNotBang (type ++ bang :: rest) = (type, bang :: rest).
Proof.
  induction type as [|c type IH]; intros Hno; [reflexivity|].
  cbn [app spanNotBang].
  destruct (N.eqb_spec c bang) as [->|Hne]; [exfalso; apply Hno; left; reflexivity|].
  rewrite IH by (intros H; apply Hno; right; exact H). reflexivity.
Qed.

Lemma matchKey_compositeKey (type id : jsstring) :
  type <> [] -> ~ In bang type ->
  id <> [] -> (forall c, In c id -> isLineTerminator c = false) ->
  matchKey (compositeKey type id) = Some (type, id).
Proof.
  intros Ht Hno Hi Hlt. unfold matchKey, compositeKey. cbn [app].
  rewrite spanNotBang_key by assumption.
  destruct type as [|c type]; [congruence|].
  rewrite N.eqb_refl. cbn [andb].
  destruct id as [|d id]; [congruence|]. cbn [length Nat.eqb negb andb].
  assert (Hall : forallb (fun c => negb (isLineTerminator c)) (d :: id) = true).
  { apply forallb_forall. intros x Hx. rewrite (Hlt x Hx). reflexivity. }
  rewrite Hall. reflexivity.
Qed.

Lemma getProp_setProp_same (key : jsstring) (v : json) (props : list (jsstring * json)) :
  getProp key (setProp key v props) = Some v.
Proof.
  induction props as [|[k w] props IH]; cbn [setProp getProp].
  - rewrite decide_True by reflexivity. reflexivity.
  - destruct (decide (k = key)) as [->|Hne]; cbn [getProp].
    + rewrite decide_True by reflexivity. reflexivity.
    + rewrite decide_False by assumption. exact IH.
Qed.

Lemma getProp_setProp_other (key key' : jsstring) (v : json)
    (props : list (jsstring * json)) :
  key <> key' ->
  getProp key' (setProp key v props) = getProp key' props.
Proof.
  intros Hne. induction props as [|[k w] props IH]; cbn [setProp getProp].
  - rewrite decide_False by assumption. reflexivity.
  - destruct (decide (k = key)) as [->|Hk]; cbn [getProp].
    + rewrite !decide_False by assumption. reflexivity.
    + destruct (decide (k = key')); [reflexivity | exact IH].
Qed.

(** C8, as the specification states it, fails on two inputs: an empty
    type, which contains no [!], and an id with a line feed.  In both the
    key does not match and [_formatRecord] throws. *)
Lemma formatRecord_roundtrip_fails :
  _formatRecord (compositeKey [] (codes "x")) (Some []) = Throw TypeError
  /\ _formatRecord (compositeKey (codes "chat") (codes "a" ++ [10%N] ++ codes "b"))
       (Some [])
     = Throw TypeError.
Proof. split; vm_compute; reflexivity. Qed.

(** C8, amended.  For a non-empty type without [!], a non-empty id without
    line terminator and any record object, [_formatRecord] on the key
    [type!id] returns the record with exactly these [type] and [id], and
    the key made again from the two fields is the original key; the key
    is split at its first [!]. *)
Theorem formatRecord_roundtrip (type id : jsstring) (props : list (jsstring * json)) :
  type <> [] -> ~ In bang type ->
  id <> [] -> (forall c, In c id -> isLineTerminator c = false) ->
  exists record,
    _formatRecord (compositeKey type id) (Some props) = Ok record
    /\ getProp (codes "type") record = Some (JStr type)
    /\ getProp (codes "id") record = Some (JStr id)
    /\ keyOf record = Some (compositeKey type id)
    /\ spanNotBang (compositeKey type id) = (type, bang :: id).
Proof.
  intros Ht Hno Hi Hlt. unfold _formatRecord.
  rewrite matchKey_compositeKey by assumption.
  eexists. split; [reflexivity|].
  assert (Htype : getProp (codes "type")
                    (setProp (codes "type") (JStr type)
                       (setProp (codes "id") (JStr id) props))
                  = Some (JStr type)) by apply getProp_setProp_same.
  assert (Hid : getProp (codes "id")
                  (setProp (codes "type") (JStr type)
                     (setProp (codes "id") (JStr id) props))
                = Some (JStr id)).
  { rewrite getProp_setProp_other by discriminate. apply getProp_setProp_same. }
  split; [exact Htype|]. split; [exact Hid|]. split.
  - unfold keyOf. rewrite Htype, Hid. reflexivity.
  - apply spanNotBang_key, Hno.
Qed.

Lemma formatRecord_roundtrip_witness :
  exists record,
    _formatRecord (compositeKey (codes "chat") (codes "000000Fd!x"))
      (Some [(codes "timestamp", JNum 5)])
    = Ok record
    /\ getProp (codes "type") record = Some (JStr (codes "chat"))
    /\ getProp (codes "id") record = Some (JStr (codes "000000Fd!x"))
    /\ keyOf record = Some (compositeKey (codes "chat") (codes "000000Fd!x"))
    /\ spanNotBang (compositeKey (codes "chat") (codes "000000Fd!x"))
       = (codes "chat", bang :: codes "000000Fd!x").
Proof.
  apply (formatRecord_roundtrip (codes "chat") (codes "000000Fd!x")
           [(codes "timestamp", JNum 5)]).
  - discriminate.
  - vm_compute. intuition discriminate.
  - discriminate.
  - intros c Hc. vm_compute in Hc.
    repeat (destruct Hc as [<-|Hc]; [reflexivity|]). destruct Hc.
Defined.

End StoreFacts.

(** ** The order of the room data *)

Section SortFacts.

Import ArraySort Scenarios.

Lemma sortCompare_not_reflexive (r : list (jsstring * json)) :
  isParticipant r = true -> sortCompare r r = 1%Z.
Proof.
  unfold isParticipant, sortCompare, comparefn. intros H.
  destruct (getProp (codes "type") r) as [[| | |s| |]|]; try discriminate.
  rewrite H. reflexivity.
Qed.

Lemma sortCompare_never_negative (a b : list (jsstring * json)) :
  (0 <= sortCompare a b)%Z.
Proof. unfold sortCompare. destruct (comparefn a b); lia. Qed.

Lemma search_rightmost {A : Type} (cmp : A -> A -> Z) (x : A) (sorted : list A) :
  (forall a b, (0 <= cmp a b)%Z) ->
  forall fuel left right,
    (left <= right)%nat -> (right <= length sorted)%nat ->
    (right - left < fuel)%nat ->
    search cmp fuel x sorted left right = right.
Proof.
  intros Hnn. induction fuel as [|fuel IH]; intros left right Hlr Hr Hf; [lia|].
  cbn [search]. destruct (Nat.ltb_spec left right) as [Hlt|Hge]; [|lia].
  set (mid := (left + (right - left) / 2)%nat).
  assert (Hmid : (left <= mid < right)%nat).
  { unfold mid. pose proof (Nat.div_mod_eq (right - left) 2).
    pose proof (Nat.mod_upper_bound (right - left) 2). lia. }
  destruct (lookup_lt_is_Some_2 sorted mid ltac:(lia)) as [y Hy]. rewrite Hy.
  destruct (Z.ltb_spec (cmp x y) 0) as [Hneg|_];
    [specialize (Hnn x y); lia|].
  apply IH; lia.
Qed.

(** Under binary insertion a comparator that is never negative leaves
    every array as it is. *)
Lemma binaryInsertionSort_unchanged {A : Type} (cmp : A -> A -> Z) (l : list A) :
  (forall a b, (0 <= cmp a b)%Z) ->
  binaryInsertionSort cmp l = l.
Proof.
  intros Hnn. unfold binaryInsertionSort.
  assert (H : forall acc, fold_left (insertAt cmp) l acc = acc ++ l).
  { induction l as [|x l IH]; intros acc; cbn [fold_left].
    - rewrite app_nil_r. reflexivity.
    - rewrite IH. unfold insertAt.
      rewrite search_rightmost by (assumption || lia).
      rewrite take_ge, drop_ge by lia. rewrite <- app_assoc. reflexivity. }
  apply H.
Qed.

Lemma sink_participant (x : list (jsstring * json)) (acc : list (list (jsstring * json))) :
  isParticipant x = true -> sink sortCompare x acc = acc ++ [x].
Proof.
  intros Hx. induction acc as [|y acc IH]; cbn [sink]; [reflexivity|].
  unfold sortCompare at 1, comparefn. fold (isParticipant x). rewrite Hx.
  cbn. rewrite IH. reflexivity.
Qed.

Lemma sink_other (x : list (jsstring * json)) (acc : list (list (jsstring * json))) :
  isParticipant x = false -> sink sortCompare x acc = x :: acc.
Proof.
  intros Hx. destruct acc as [|y acc]; cbn [sink]; [reflexivity|].
  unfold sortCompare, comparefn. fold (isParticipant x). rewrite Hx.
  reflexivity.
Qed.

(** Under linear insertion the participants come first, in the reverse
    of their original order. *)
Lemma insertionSort_reverses_participants (l : list (list (jsstring * json))) :
  requestRoomData_then insertionSort l
  = rev (filter (fun r => isParticipant r = true) l)
    ++ filter (fun r => isParticipant r = false) l.
Proof.
  unfold requestRoomData_then, insertionSort.
  assert (H : forall acc,
             fold_left (fun acc x => sink sortCompare x acc) l acc
             = rev (filter (fun r => isParticipant r = false) l)
               ++ acc ++ filter (fun r => isParticipant r = true) l).
  { induction l as [|x l IH]; intros acc; cbn [fold_left].
    - simpl. rewrite app_nil_r. reflexivity.
    - rewrite IH. destruct (isParticipant x) eqn:Hx.
      + rewrite sink_participant by assumption.
        rewrite !filter_cons. repeat case_decide; try congruence.
        rewrite <- app_assoc. reflexivity.
      + rewrite sink_other by assumption.
        rewrite !filter_cons. repeat case_decide; try congruence.
        cbn [rev]. rewrite <- app_assoc. reflexivity. }
  rewrite H. cbn [app]. rewrite rev_app_distr, rev_involutive. reflexivity.
Qed.

(** C9: the code does not deliver the stable partition.  The comparator
    answers [true] or [false], that is 1 or 0 and never a negative number,
    and it is not even 0 on a participant compared with itself, so the
    language leaves the resulting order to the engine.  On the records
    [chat!c], [participant!a], [participant!b] the stable partition is
    [a, b, c]; linear insertion gives [b, a, c], with the participants
    reversed, and binary insertion leaves the array as it was, with the
    chat record first.  On every input binary insertion changes nothing
    and linear insertion reverses the participants. *)
Theorem requestRoomData_order_depends_on_engine :
  let c := formatted "chat!c" in
  let a := formatted "participant!a" in
  let b := formatted "participant!b" in
  stablePartition [c; a; b] = [a; b; c]
  /\ requestRoomData_then insertionSort [c; a; b] = [b; a; c]
  /\ requestRoomData_then binaryInsertionSort [c; a; b] = [c; a; b]
  /\ sortCompare a a = 1%Z
  /\ sortCompare a c = 0%Z /\ sortCompare c a = 1%Z
  /\ ~ reflexiveOn sortCompare [c; a; b]
  /\ (forall l, requestRoomData_then binaryInsertionSort l = l)
  /\ (forall l, requestRoomData_then insertionSort l
                = rev (filter (fun r => isParticipant r = true) l)
                  ++ filter (fun r => isParticipant r = false) l).
Proof.
  intros c a b.
  split; [vm_compute; reflexivity|]. split; [vm_compute; reflexivity|].
  split; [vm_compute; reflexivity|]. split; [vm_compute; reflexivity|].
  split; [vm_compute; reflexivity|]. split; [vm_compute; reflexivity|].
  split; [|split].
  - intros H. inversion H as [|? ? _ H1]. inversion H1 as [|? ? Ha _].
    vm_compute in Ha. discriminate.
  - intros l. apply binaryInsertionSort_unchanged, sortCompare_never_negative.
  - apply insertionSort_reverses_participants.
Qed.

End SortFacts.

(** ** More on the identifier generator *)

Section MakeIdMore.

Local Open Scope Z_scope.

Lemma lex_compare_refl (a : jsstring) : lex_compare a a = Eq.
Proof.
  induction a as [|x a IH]; simpl; [reflexivity|].
  rewrite N.compare_refl. exact IH.
Qed.

Lemma str_lt_trans (a b c : jsstring) : str_lt a b -> str_lt b c -> str_lt a c.
Proof.
  unfold str_lt. revert b c.
  induction a as [|x a IH]; intros [|y b] [|z c]; simpl; try discriminate;
    try reflexivity.
  destruct (N.compare_spec x y) as [->|Hxy|Hxy]; try discriminate.
  - destruct (N.compare z y) eqn:E; destruct (N.compare_spec y z) as [->|Hyz|Hyz];
      try discriminate; try reflexivity; intros H1 H2; eapply IH; eassumption.
  - intros _. destruct (N.compare_spec y z) as [->|Hyz|Hyz]; try discriminate.
    + intros _. apply N.compare_lt_iff in Hxy. rewrite Hxy. reflexivity.
    + intros _. assert (Hxz : (x < z)%N) by lia.
      apply N.compare_lt_iff in Hxz. rewrite Hxz. reflexivity.
Qed.

(** The state a call leaves, whether it returns or throws. *)
Lemma makeId_state g rnd (t : Z) :
  snd (makeId g rnd t)
  = Some {| lastRandChars :=
              if (0 <=? t) && (t <? 64 ^ 8) then nextSlots g rnd t
              else lastRandChars (ensure_init g);
            lastTime := t |}.
Proof.
  unfold makeId.
  pose proof (stampLoop_rest 8 t []) as Hrest.
  destruct (stampLoop 8 t []) as [chars rest]. cbn [snd] in Hrest. subst rest.
  change (Z.of_nat 8) with 8.
  destruct (Z.eqb_spec (t / 64 ^ 8) 0) as [Hz|Hnz]; cbn [negb].
  - apply Z.div_small_iff in Hz; [|lia].
    assert (Hin : (0 <=? t) && (t <? 64 ^ 8) = true).
    { apply andb_true_iff. split; [apply Z.leb_le | apply Z.ltb_lt]; lia. }
    rewrite Hin. unfold nextSlots.
    match goal with
    | |- context [if negb ?c then _ else _] => destruct c
    end; reflexivity.
  - assert (Hout : (0 <=? t) && (t <? 64 ^ 8) = false).
    { apply andb_false_iff.
      destruct (Z.leb_spec 0 t) as [H0|H0]; [|left; reflexivity].
      right. apply Z.ltb_ge.
      destruct (Z.lt_ge_cases t (64 ^ 8)) as [Hlt|Hge]; [|exact Hge].
      exfalso. apply Hnz. apply Z.div_small. lia. }
    rewrite Hout. reflexivity.
Qed.

Lemma draws_range (rnd : nat -> Z) :
  draws_ok rnd -> Forall (fun d => 0 <= d < 64) (map rnd (seq 0 12)).
Proof.
  intros Hr. rewrite List.Forall_map. apply List.Forall_forall.
  intros i Hi. apply in_seq in Hi. apply Hr. lia.
Qed.

Lemma fresh_draw_step g rnd (t : Z) :
  t <> lastTime (ensure_init g) ->
  0 <= t < 64 ^ 8 ->
  draws_ok rnd ->
  exists g',
    makeId g rnd t
    = (Ok (timeStamp t ++ map digitChar (map rnd (seq 0 12))), g')
    /\ slots g' = numeric (map rnd (seq 0 12))
    /\ lastTime (ensure_init g') = t.
Proof.
  intros Hne Ht Hr.
  assert (Hn : nextSlots g rnd t = redraw rnd (lastRandChars (ensure_init g))).
  { unfold nextSlots. destruct (Z.eqb_spec t (lastTime (ensure_init g)));
      [contradiction | reflexivity]. }
  eexists. split; [|split].
  - rewrite makeId_returns_gen; [|rewrite Hn; apply redraw_wf, Hr | exact Ht].
    rewrite Hn.
    rewrite (suffixChars_numeric _ _ (redraw_slots rnd _) (draws_range rnd Hr)).
    reflexivity.
  - apply redraw_slots.
  - reflexivity.
Qed.

(** X2.  A returning call at a time other than [lastTime] spells its
    twelve random draws after the time stamp, whatever the slots held
    before, and leaves these draws in the slots. *)
Theorem makeId_fresh_draw g rnd (t : Z) :
  t <> lastTime (ensure_init g) ->
  0 <= t < 64 ^ 8 ->
  draws_ok rnd ->
  exists g',
    makeId g rnd t
    = (Ok (timeStamp t ++ map digitChar (map rnd (seq 0 12))), g')
    /\ slots g' = numeric (map rnd (seq 0 12))
    /\ lastTime (ensure_init g') = t.
Proof. apply fresh_draw_step. Qed.

Lemma makeId_fresh_draw_witness :
  exists g',
    makeId None (fun i => Z.of_nat i) 1000
    = (Ok (timeStamp 1000 ++ map digitChar (map (fun i => Z.of_nat i) (seq 0 12))), g')
    /\ slots g' = numeric (map (fun i => Z.of_nat i) (seq 0 12))
    /\ lastTime (ensure_init g') = 1000.
Proof.
  apply (makeId_fresh_draw None (fun i => Z.of_nat i) 1000).
  - vm_compute. discriminate.
  - lia.
  - intros i Hi. lia.
Defined.

(** X1.  For a time below 0 or from [64^8] on, the call throws, leaves the
    slots untouched and still records the time as [lastTime]; the next
    call at a valid time then always draws a fresh suffix. *)
Theorem makeId_out_of_range g rnd rnd' (t t' : Z) :
  t < 0 \/ 64 ^ 8 <= t ->
  0 <= t' < 64 ^ 8 ->
  draws_ok rnd' ->
  exists g1 g2,
    makeId g rnd t
    = (Throw (Error "We should have converted the entire timestamp."), g1)
    /\ lastRandChars (ensure_init g1) = lastRandChars (ensure_init g)
    /\ lastTime (ensure_init g1) = t
    /\ makeId g1 rnd' t'
       = (Ok (timeStamp t' ++ map digitChar (map rnd' (seq 0 12))), g2).
Proof.
  intros Ht Ht' Hr.
  destruct (fresh_draw_step
              (Some {| lastRandChars := lastRandChars (ensure_init g); lastTime := t |})
              rnd' t') as (g2 & E2 & _); [cbn; lia | exact Ht' | exact Hr |].
  eexists. exists g2. split; [apply makeId_throws, Ht|].
  split; [reflexivity|]. split; [reflexivity | exact E2].
Qed.

Lemma makeId_out_of_range_witness :
  exists g1 g2,
    makeId None (fun _ => 0) (-1)
    = (Throw (Error "We should have converted the entire timestamp."), g1)
    /\ lastRandChars (ensure_init g1) = lastRandChars (ensure_init None)
    /\ lastTime (ensure_init g1) = -1
    /\ makeId g1 (fun _ => 7) 0
       = (Ok (timeStamp 0 ++ map digitChar (map (fun _ => 7) (seq 0 12))), g2).
Proof.
  apply (makeId_out_of_range None (fun _ => 0) (fun _ => 7) (-1) 0).
  - left. lia.
  - lia.
  - intros i Hi. lia.
Defined.

Lemma counterValue_digitsBE (n : nat) (t : Z) :
  counterValue (digitsBE n t) = t mod 64 ^ Z.of_nat n.
Proof.
  revert t. induction n as [|n IH]; intros t.
  - simpl. rewrite Z.mod_1_r. reflexivity.
  - cbn [digitsBE]. rewrite counterValue_snoc, IH.
    rewrite Nat2Z.inj_succ, Z.pow_succ_r by lia.
    rewrite Z.rem_mul_r by lia. lia.
Qed.

Lemma indexIn_digitChar (d : Z) :
  0 <= d < 64 -> indexIn (digitChar d) CHARS = d.
Proof.
  intros Hd.
  assert (H : alphabetDecodes = true) by (vm_compute; reflexivity).
  unfold alphabetDecodes in H. rewrite forallb_forall in H.
  specialize (H (Z.to_nat d)).
  rewrite Z.eqb_eq in H. unfold digitChar. rewrite H; [lia|].
  apply in_seq. lia.
Qed.

Lemma decodeStamp_digits (ds : list Z) :
  Forall (fun d => 0 <= d < 64) ds ->
  decodeStamp (map digitChar ds) = counterValue ds.
Proof.
  intros H. unfold decodeStamp, counterValue. generalize 0.
  induction H as [|d ds Hd Hr IH]; intros acc; [reflexivity|].
  cbn [map fold_left]. rewrite indexIn_digitChar by exact Hd.
  apply IH.
Qed.

Lemma decodeStamp_timeStamp (t : Z) :
  0 <= t < 64 ^ 8 -> decodeStamp (timeStamp t) = t.
Proof.
  intros Ht. unfold timeStamp.
  rewrite decodeStamp_digits by apply digitsBE_range.
  rewrite counterValue_digitsBE. apply Z.mod_small. exact Ht.
Qed.

Lemma makeId_stamp g rnd (t : Z) id g' :
  makeId g rnd t = (Ok id, g') ->
  take 8 id = timeStamp t /\ decodeStamp (take 8 id) = t.
Proof.
  intros E. apply makeId_Ok_inv in E. destruct E as (Ht & m & _ & -> & _).
  assert (Htake : take 8 (timeStamp t ++ suffixChars m) = timeStamp t)
    by (apply take_app_length'; symmetry; apply timeStamp_length).
  split; [exact Htake|].
  rewrite Htake. apply decodeStamp_timeStamp, Ht.
Qed.

(** X3.  The first eight characters of an identifier that [makeId]
    returns spell its time: read as base-64 digits in the alphabet, most
    significant first, they give the time back.  So two identifiers that
    begin with the same eight characters were made for the same time,
    whatever the generator states and the draws were. *)
Theorem makeId_stamp_decodes g rnd (t : Z) id g' :
  makeId g rnd t = (Ok id, g') ->
  take 8 id = map digitChar (digitsBE 8 t)
  /\ decodeStamp (take 8 id) = t
  /\ forall g2 rnd2 t2 id2 g2',
       makeId g2 rnd2 t2 = (Ok id2, g2') ->
       take 8 id2 = take 8 id -> t2 = t.
Proof.
  intros E. destruct (makeId_stamp _ _ _ _ _ E) as [Ht Hd].
  split; [exact Ht|]. split; [exact Hd|].
  intros g2 rnd2 t2 id2 g2' E2 Heq.
  destruct (makeId_stamp _ _ _ _ _ E2) as [_ Hd2].
  rewrite <- Hd, <- Hd2, Heq. reflexivity.
Qed.

Lemma makeId_stamp_decodes_witness :
  take 8 (codes "000000Fd0123456789AB") = map digitChar (digitsBE 8 1000)
  /\ decodeStamp (take 8 (codes "000000Fd0123456789AB")) = 1000
  /\ forall g2 rnd2 t2 id2 g2',
       makeId g2 rnd2 t2 = (Ok id2, g2') ->
       take 8 id2 = take 8 (codes "000000Fd0123456789AB") -> t2 = 1000.
Proof.
  apply (makeId_stamp_decodes None (fun i => Z.of_nat i) 1000
           (codes "000000Fd0123456789AB")
           (Some {| lastRandChars := redraw (fun i => Z.of_nat i) ∅;
                    lastTime := 1000 |})).
  vm_compute. reflexivity.
Defined.

Lemma all63_value (ds : list Z) :
  Forall (fun d => d = 63) ds ->
  counterValue ds = 64 ^ Z.of_nat (length ds) - 1.
Proof.
  induction ds as [|d ds IH] using rev_ind; intros H; [reflexivity|].
  apply Forall_app in H. destruct H as [H Hd].
  inversion Hd as [|? ? Hd' _]; subst.
  rewrite counterValue_snoc, IH by assumption.
  rewrite length_app. cbn [length].
  replace (Z.of_nat (length ds + 1)) with (Z.succ (Z.of_nat (length ds))) by lia.
  rewrite Z.pow_succ_r by lia. lia.
Qed.

Lemma below_top_not_all63 (ds : list Z) :
  counterValue ds < 64 ^ Z.of_nat (length ds) - 1 ->
  Exists (fun d => d <> 63) ds.
Proof.
  intros Hlt.
  destruct (decide (Exists (fun d => d <> 63) ds)) as [Hex|Hno]; [exact Hex|].
  exfalso. apply Forall_Exists_neg in Hno.
  assert (Hall : Forall (fun d => d = 63) ds).
  { eapply List.Forall_impl; [|exact Hno]. intros d Hd. simpl in Hd. lia. }
  rewrite (all63_value _ Hall) in Hlt. lia.
Qed.

Lemma same_time_step g rnd (t : Z) (ds : list Z) :
  lastTime (ensure_init g) = t ->
  0 <= t < 64 ^ 8 ->
  slots g = numeric ds ->
  Forall (fun d => 0 <= d < 64) ds ->
  Exists (fun d => d <> 63) ds ->
  makeId g rnd t
  = (Ok (timeStamp t ++ map digitChar (counterSucc ds)),
     Some {| lastRandChars := increment (lastRandChars (ensure_init g));
             lastTime := t |})
  /\ view 12 (increment (lastRandChars (ensure_init g))) = numeric (counterSucc ds)
  /\ Forall (fun d => 0 <= d < 64) (counterSucc ds).
Proof.
  intros Hlast Ht Hs Hr Hex. unfold slots in Hs.
  fold (view 12 (lastRandChars (ensure_init g))) in Hs.
  pose proof (numeric_wf _ _ Hs Hr) as Hwf.
  assert (Hn : nextSlots g rnd t = increment (lastRandChars (ensure_init g))).
  { unfold nextSlots. rewrite Hlast, Z.eqb_refl. reflexivity. }
  assert (Hv : view 12 (increment (lastRandChars (ensure_init g)))
               = numeric (counterSucc ds)).
  { unfold increment.
    destruct (carryLoop 12 (lastRandChars (ensure_init g))) as [i m'] eqn:Hc.
    eapply increment_view; eassumption. }
  assert (Hr' : Forall (fun d => 0 <= d < 64) (counterSucc ds)).
  { eapply wf_numeric_range; [apply increment_wf, Hwf | exact Hv]. }
  split; [|split; assumption].
  rewrite makeId_returns_gen; [|rewrite Hn; apply increment_wf, Hwf | exact Ht].
  rewrite Hn, (suffixChars_numeric _ _ Hv Hr'). reflexivity.
Qed.

Lemma makeIds_run (draws : list (nat -> Z)) (t : Z) :
  0 <= t < 64 ^ 8 ->
  forall g ds,
    lastTime (ensure_init g) = t ->
    slots g = numeric ds ->
    Forall (fun d => 0 <= d < 64) ds ->
    counterValue ds + Z.of_nat (length draws) < 64 ^ 12 ->
    exists ids g' ds',
      makeIds g draws t = (map Ok ids, g')
      /\ length ids = length draws
      /\ StronglySorted str_lt ((timeStamp t ++ map digitChar ds) :: ids)
      /\ Forall (fun id => take 8 id = timeStamp t /\ length id = 20%nat) ids
      /\ lastTime (ensure_init g') = t
      /\ slots g' = numeric ds'
      /\ counterValue ds' = counterValue ds + Z.of_nat (length draws).
Proof.
  intros Ht. induction draws as [|rnd draws IH]; intros g ds Hlast Hs Hr Hv.
  - exists [], g, ds. cbn [makeIds map length]. repeat split; try assumption.
    + repeat constructor.
    + constructor.
    + lia.
  - assert (Hlen : length ds = 12%nat).
    { rewrite <- numeric_length, <- Hs. apply view_length. }
    assert (Hex : Exists (fun d => d <> 63) ds).
    { apply below_top_not_all63. rewrite Hlen. cbn [length] in Hv.
      change (Z.of_nat 12) with 12. lia. }
    destruct (same_time_step g rnd t ds Hlast Ht Hs Hr Hex) as (E1 & Hv1 & Hr1).
    set (g1 := Some {| lastRandChars := increment (lastRandChars (ensure_init g));
                       lastTime := t |}) in *.
    destruct (IH g1 (counterSucc ds)) as (ids & g' & ds' & E & Hl & Hsorted & Hall & Hlt' & Hs' & Hv');
      [reflexivity | exact Hv1 | exact Hr1 | |].
    { rewrite counterSucc_value by exact Hex. cbn [length] in Hv. lia. }
    exists ((timeStamp t ++ map digitChar (counterSucc ds)) :: ids), g', ds'.
    cbn [makeIds]. rewrite E1, E. cbn [map length].
    split; [reflexivity|]. split; [rewrite Hl; reflexivity|].
    assert (Hstep : str_lt (timeStamp t ++ map digitChar ds)
                      (timeStamp t ++ map digitChar (counterSucc ds))).
    { unfold str_lt. rewrite lex_compare_app_same.
      apply counterSucc_order; assumption. }
    split; [|split; [|split; [exact Hlt'|split; [exact Hs'|]]]].
    + constructor; [exact Hsorted|]. constructor; [exact Hstep|].
      apply StronglySorted_inv in Hsorted. destruct Hsorted as [_ Hall'].
      eapply List.Forall_impl; [|exact Hall'].
      intros id Hid. eapply str_lt_trans; eassumption.
    + constructor; [|exact Hall]. split.
      * apply take_app_length'. symmetry. apply timeStamp_length.
      * rewrite length_app, timeStamp_length, length_map, counterSucc_length, Hlen.
        reflexivity.
    + rewrite Hv', counterSucc_value by exact Hex. cbn [length]. lia.
Qed.

(** X4.  On a reachable generator whose twelve slots hold the counter
    value [v] at time [t], the next [n] calls at the same [t] all return,
    as long as [v + n < 64^12]: their identifiers are strictly increasing
    in call order, each greater than the one returned before them, each of
    20 characters with the time stamp of [t], and the counter ends at
    [v + n]. *)
Theorem makeIds_strictly_increasing g (draws : list (nat -> Z)) (t : Z) (ds : list Z) :
  reachable g ->
  lastTime (ensure_init g) = t ->
  0 <= t < 64 ^ 8 ->
  slots g = numeric ds ->
  counterValue ds + Z.of_nat (length draws) < 64 ^ 12 ->
  exists ids g' ds',
    makeIds g draws t = (map Ok ids, g')
    /\ length ids = length draws
    /\ StronglySorted str_lt ((timeStamp t ++ map digitChar ds) :: ids)
    /\ Forall (fun id => take 8 id = timeStamp t /\ length id = 20%nat) ids
    /\ lastTime (ensure_init g') = t
    /\ slots g' = numeric ds'
    /\ counterValue ds' = counterValue ds + Z.of_nat (length draws).
Proof.
  intros Hg Hlast Ht Hs Hv.
  apply makeIds_run; try assumption.
  eapply wf_numeric_range; [apply reachable_wf, Hg | exact Hs].
Qed.

Lemma makeIds_strictly_increasing_witness :
  exists ids g' ds',
    makeIds (snd (makeId None (fun _ => 62) 1000))
      [(fun _ => 0); (fun _ => 1); (fun _ => 2)] 1000
    = (map Ok ids, g')
    /\ length ids = length [(fun _ : nat => 0); (fun _ => 1); (fun _ => 2)]
    /\ StronglySorted str_lt
         ((timeStamp 1000 ++ map digitChar (replicate 12 62)) :: ids)
    /\ Forall (fun id => take 8 id = timeStamp 1000 /\ length id = 20%nat) ids
    /\ lastTime (ensure_init g') = 1000
    /\ slots g' = numeric ds'
    /\ counterValue ds'
       = counterValue (replicate 12 62)
         + Z.of_nat (length [(fun _ : nat => 0); (fun _ => 1); (fun _ => 2)]).
Proof.
  apply (makeIds_strictly_increasing (snd (makeId None (fun _ => 62) 1000))
           [(fun _ => 0); (fun _ => 1); (fun _ => 2)] 1000 (replicate 12 62)).
  - apply reachable_call; [apply reachable_fresh | intros i Hi; lia].
  - vm_compute. reflexivity.
  - lia.
  - vm_compute. reflexivity.
  - vm_compute. reflexivity.
Defined.

(** X5.  Once all twelve slots hold numbers they hold numbers after every
    later call, whatever its time and draws and whether it returns or
    throws. *)
Theorem makeId_keeps_numeric g rnd (t : Z) (ds : list Z) :
  slots g = numeric ds ->
  exists ds', slots (snd (makeId g rnd t)) = numeric ds'.
Proof.
  intros Hs. rewrite makeId_state. unfold slots in *.
  cbn [ensure_init lastRandChars].
  fold (view 12 (lastRandChars (ensure_init g))) in Hs.
  destruct ((0 <=? t) && (t <? 64 ^ 8)); [|exists ds; exact Hs].
  unfold nextSlots. destruct (t =? lastTime (ensure_init g)).
  - destruct (decide (Exists (fun d => d <> 63) ds)) as [Hex|Hno].
    + exists (counterSucc ds). unfold increment.
      destruct (carryLoop 12 (lastRandChars (ensure_init g))) as [i m'] eqn:Hc.
      eapply increment_view; eassumption.
    + apply Forall_Exists_neg in Hno.
      assert (Hrep : ds = replicate 12 63).
      { symmetry. apply replicate_as_Forall. split.
        - rewrite <- numeric_length, <- Hs. apply view_length.
        - eapply List.Forall_impl; [|exact Hno]. intros d Hd. simpl in Hd. lia. }
      subst ds. exists (replicate 12 0).
      apply (increment_overflow _ Hs).
  - exists (map rnd (seq 0 12)). apply redraw_slots.
Qed.

Lemma makeId_keeps_numeric_witness :
  exists ds',
    slots (snd (makeId (snd (makeId None (fun _ => 63) 5)) (fun _ => 0) 5))
    = numeric ds'.
Proof.
  apply (makeId_keeps_numeric (snd (makeId None (fun _ => 63) 5)) (fun _ => 0) 5
           (replicate 12 63)).
  vm_compute. reflexivity.
Defined.

End MakeIdMore.

(** ** More on [requestChat] *)

Section RequestChatMore.

Import FirebaseClient.
Local Open Scope Z_scope.

(** *** Numbers beyond [2^53] *)

Lemma roundDouble_exact (z : Z) : Z.abs z < 2 ^ 53 -> roundDouble z = z.
Proof.
  intros H. unfold roundDouble.
  destruct (Z.ltb_spec (Z.abs z) (2 ^ 53)); [reflexivity | lia].
Qed.

Lemma roundDouble_mantissa (a : Z) :
  2 ^ 53 <= a ->
  1 <= Z.log2 a - 52 /\ 2 ^ 52 <= a / 2 ^ (Z.log2 a - 52).
Proof.
  intros H.
  assert (Hl : 53 <= Z.log2 a).
  { change 53 with (Z.log2 (2 ^ 53)). apply Z.log2_le_mono. exact H. }
  split; [lia|].
  pose proof (Z.log2_spec a ltac:(lia)) as [Hlo _].
  replace (2 ^ Z.log2 a) with (2 ^ 52 * 2 ^ (Z.log2 a - 52)) in Hlo
    by (rewrite <- Z.pow_add_r by lia; f_equal; lia).
  apply Z.div_le_lower_bound; [apply Z.pow_pos_nonneg; lia | lia].
Qed.

Lemma roundDouble_large (z : Z) : 2 ^ 53 <= z -> 2 ^ 53 <= roundDouble z.
Proof.
  intros H. unfold roundDouble.
  rewrite (Z.abs_eq z) by lia.
  destruct (Z.ltb_spec z (2 ^ 53)); [lia|].
  destruct (roundDouble_mantissa z H) as [He Hq].
  rewrite Z.sgn_pos by lia.
  set (e := Z.log2 z - 52) in *. set (q := z / 2 ^ e) in *.
  assert (H2 : 2 <= 2 ^ e).
  { change 2 with (2 ^ 1) at 1. apply Z.pow_le_mono_r; lia. }
  match goal with
  | |- context [if ?c then _ else _] => destruct c
  end; nia.
Qed.

Lemma roundDouble_negative (z : Z) : z < 0 -> roundDouble z < 0.
Proof.
  intros H. unfold roundDouble.
  destruct (Z.ltb_spec (Z.abs z) (2 ^ 53)); [exact H|].
  destruct (roundDouble_mantissa (Z.abs z) ltac:(lia)) as [He Hq].
  rewrite Z.sgn_neg by lia.
  set (e := Z.log2 (Z.abs z) - 52) in *. set (q := Z.abs z / 2 ^ e) in *.
  assert (H2 : 2 <= 2 ^ e).
  { change 2 with (2 ^ 1) at 1. apply Z.pow_le_mono_r; lia. }
  match goal with
  | |- context [if ?c then _ else _] => destruct c
  end; nia.
Qed.

(** The first bound, when it is below [2^53]. *)
Lemma firstBound_exact (z : Z) :
  z < 2 ^ 53 -> Z.max 0 (roundDouble z) = Z.max 0 z.
Proof.
  intros H. destruct (Z.lt_ge_cases (- 2 ^ 53) z) as [Hlo|Hlo].
  - rewrite roundDouble_exact by lia. reflexivity.
  - pose proof (roundDouble_negative z ltac:(lia)). lia.
Qed.

(** A bound that is too large stays too large when it is rounded. *)
Lemma roundDouble_out_of_range (z : Z) :
  z < 0 \/ 64 ^ 8 <= z -> roundDouble z < 0 \/ 64 ^ 8 <= roundDouble z.
Proof.
  intros [H|H]; [left; apply roundDouble_negative, H|right].
  destruct (Z.lt_ge_cases z (2 ^ 53)) as [Hs|Hs].
  - rewrite roundDouble_exact by lia. exact H.
  - pose proof (roundDouble_large z Hs). lia.
Qed.

Example roundDouble_ties :
  roundDouble (2 ^ 53 + 1) = 2 ^ 53
  /\ roundDouble (2 ^ 53 + 2) = 2 ^ 53 + 2
  /\ roundDouble (2 ^ 53 + 3) = 2 ^ 53 + 4
  /\ roundDouble (2 ^ 54 + 2) = 2 ^ 54
  /\ roundDouble (2 ^ 54 + 3) = 2 ^ 54 + 4
  /\ roundDouble (2 ^ 54 + 6) = 2 ^ 54 + 8
  /\ roundDouble (- (2 ^ 53 + 1)) = - 2 ^ 53.
Proof. vm_compute. repeat split. Qed.





(** The two branches on a new generator: bounds that differ leave the
    draws of the second call, bounds that coincide leave the draws of the
    first call moved on by one; the later identifier continues from
    there. *)
Example requestChat_generator_runs :
  slots (snd (requestChat (codes "u") None
                (fun i => Z.of_nat i) (fun i => 63 - Z.of_nat i) 1000 2000 0))
  = numeric [63; 62; 61; 60; 59; 58; 57; 56; 55; 54; 53; 52]
  /\ fst (makeId (snd (requestChat (codes "u") None
                         (fun i => Z.of_nat i) (fun i => 63 - Z.of_nat i)
                         1000 2000 0))
            (fun _ => 0) 2001)
     = Ok (timeStamp 2001 ++ map digitChar [63; 62; 61; 60; 59; 58; 57; 56; 55; 54; 53; 53])
  /\ slots (snd (requestChat (codes "u") None
                   (fun i => Z.of_nat i) (fun i => 63 - Z.of_nat i) 6 4 0))
     = numeric [0; 1; 2; 3; 4; 5; 6; 7; 8; 9; 10; 12]
  /\ fst (makeId (snd (requestChat (codes "u") None
                         (fun i => Z.of_nat i) (fun i => 63 - Z.of_nat i) 6 4 0))
            (fun _ => 0) 5)
     = Ok (timeStamp 5 ++ map digitChar [0; 1; 2; 3; 4; 5; 6; 7; 8; 9; 10; 13]).
Proof. vm_compute. repeat split. Qed.




(** The address of one such request, character by character. *)
Example requestChat_address :
  fst (requestChat (codes "https://db.example/app/") None
         (fun _ => 63) (fun _ => 0) 1000 2000 25)
  = Ok {| method := "GET";
          target :=
            codes "https://db.example/app/.json?format=export&orderBy="
              ++ doubleQuote ++ codes "$key" ++ doubleQuote
              ++ codes "&startAt=" ++ doubleQuote
              ++ codes "chat!000000Fc~~~~~~~~~~~~" ++ doubleQuote
              ++ codes "&endAt=" ++ doubleQuote
              ++ codes "chat!000000VH000000000000" ++ doubleQuote
              ++ codes "&limitToLast=25";
          body := None |}.
Proof. vm_compute. reflexivity. Qed.

(** X7.  A [requestChat] whose first bound is too large throws and
    sends nothing; the second [makeId] never runs, so the slots are as
    before, but [lastTime] is now the first bound.  The bound is
    [startTime - 1] as numbers compute it: the exact difference below
    [2^53], and the nearest number with a 53-bit mantissa beyond. *)
Theorem requestChat_first_bound_fails url g rnd1 rnd2 (startTime endTime limit : Z) :
  isNumber startTime ->
  64 ^ 8 <= startTime - 1 ->
  requestChat url g rnd1 rnd2 startTime endTime limit
  = (Throw (Error "We should have converted the entire timestamp."),
     Some {| lastRandChars := lastRandChars (ensure_init g);
             lastTime := roundDouble (startTime - 1) |})
  /\ 64 ^ 8 <= roundDouble (startTime - 1)
  /\ (startTime - 1 < 2 ^ 53 -> roundDouble (startTime - 1) = startTime - 1).
Proof.
  intros _ Hs.
  assert (Hout : 64 ^ 8 <= roundDouble (startTime - 1)).
  { destruct (roundDouble_out_of_range (startTime - 1) (or_intror Hs)) as [H|H];
      [|exact H].
    destruct (Z.lt_ge_cases (startTime - 1) (2 ^ 53)) as [Hlt|Hge].
    - rewrite roundDouble_exact in H by lia. lia.
    - pose proof (roundDouble_large _ Hge). lia. }
  split; [|split; [exact Hout|]].
  - unfold requestChat.
    replace (Z.max 0 (roundDouble (startTime - 1)))
      with (roundDouble (startTime - 1)) by lia.
    rewrite makeId_throws by (right; exact Hout). reflexivity.
  - intros Hlt. apply roundDouble_exact. lia.
Qed.

Lemma requestChat_first_bound_fails_witness :
  requestChat (codes "u") None (fun _ => 1) (fun _ => 2) (2 ^ 53 + 2) 5 0
  = (Throw (Error "We should have converted the entire timestamp."),
     Some {| lastRandChars := lastRandChars (ensure_init None);
             lastTime := 2 ^ 53 |}).
Proof.
  apply (requestChat_first_bound_fails (codes "u") None (fun _ => 1) (fun _ => 2)
           (2 ^ 53 + 2) 5 0).
  - split; vm_compute; reflexivity.
  - vm_compute. discriminate.
Defined.

(** X8.  A [requestChat] whose second bound is out of range throws after
    the first identifier was made: nothing is sent, yet the generator
    holds the slots that the first call left and the second bound as
    [lastTime].  The bound is [endTime + 1] as numbers compute it: the
    exact sum below [2^53] in absolute value, and the nearest number with
    a 53-bit mantissa beyond. *)
Theorem requestChat_second_bound_fails url g rnd1 rnd2 (startTime endTime limit : Z) :
  reachable g -> draws_ok rnd1 ->
  isNumber endTime ->
  startTime - 1 < 64 ^ 8 ->
  endTime + 1 < 0 \/ 64 ^ 8 <= endTime + 1 ->
  requestChat url g rnd1 rnd2 startTime endTime limit
  = (Throw (Error "We should have converted the entire timestamp."),
     Some {| lastRandChars := nextSlots g rnd1 (Z.max 0 (startTime - 1));
             lastTime := roundDouble (endTime + 1) |})
  /\ (roundDouble (endTime + 1) < 0 \/ 64 ^ 8 <= roundDouble (endTime + 1))
  /\ (Z.abs (endTime + 1) < 2 ^ 53 -> roundDouble (endTime + 1) = endTime + 1).
Proof.
  intros Hg Hr1 _ Hs He.
  pose proof (roundDouble_out_of_range _ He) as Hout.
  split; [|split; [exact Hout | apply roundDouble_exact]].
  unfold requestChat.
  rewrite firstBound_exact by (change (2 ^ 53) with 9007199254740992;
                               change (64 ^ 8) with 281474976710656 in Hs; lia).
  rewrite (makeId_returns g rnd1 (Z.max 0 (startTime - 1)))
    by (try apply reachable_wf; assumption || lia).
  rewrite makeId_throws by exact Hout. reflexivity.
Qed.

Lemma requestChat_second_bound_fails_witness :
  requestChat (codes "u") None (fun _ => 1) (fun _ => 2) 10 (2 ^ 53) 0
  = (Throw (Error "We should have converted the entire timestamp."),
     Some {| lastRandChars := nextSlots None (fun _ => 1) (Z.max 0 (10 - 1));
             lastTime := 2 ^ 53 |}).
Proof.
  apply (requestChat_second_bound_fails (codes "u") None (fun _ => 1) (fun _ => 2)
           10 (2 ^ 53) 0).
  - apply reachable_fresh.
  - intros i Hi. lia.
  - split; vm_compute; reflexivity.
  - lia.
  - right. vm_compute. discriminate.
Defined.

End RequestChatMore.

(** ** More on record formatting *)

Section FormatMore.

Import FirebaseClient.

Lemma spanNotBang_split (s a b : jsstring) :
  spanNotBang s = (a, b) ->
  s = a ++ b /\ ~ In bang a /\ (b = [] \/ exists r, b = bang :: r).
Proof.
  revert a b. induction s as [|c s IH]; intros a b H; cbn [spanNotBang] in H.
  - inversion H; subst. repeat split; auto.
  - destruct (N.eqb_spec c bang) as [->|Hne].
    + inversion H; subst. repeat split; [tauto | right; eexists; reflexivity].
    + destruct (spanNotBang s) as [a' b'] eqn:E. inversion H; subst.
      destruct (IH a' b eq_refl) as (-> & Hno & Hb).
      repeat split; [|exact Hb]. intros [Hin|Hin]; [congruence | tauto].
Qed.

Lemma matchKey_sound (key type id : jsstring) :
  matchKey key = Some (type, id) -> wellShaped key type id.
Proof.
  unfold matchKey, wellShaped. intros H.
  destruct (spanNotBang key) as [a b] eqn:E.
  apply spanNotBang_split in E. destruct E as (-> & Hno & _).
  destruct a as [|c a]; [discriminate|].
  destruct b as [|x b]; [discriminate|].
  destruct (N.eqb_spec x bang) as [->|?]; [|discriminate]. cbn [andb] in H.
  destruct b as [|d b]; [discriminate|]. cbn [length Nat.eqb negb andb] in H.
  destruct (forallb (fun c0 => negb (isLineTerminator c0)) (d :: b)) eqn:F;
    [|discriminate].
  inversion H; subst. unfold compositeKey.
  split; [reflexivity|]. split; [discriminate|]. split; [exact Hno|].
  split; [discriminate|]. intros c0 Hc0.
  rewrite forallb_forall in F. specialize (F c0 Hc0).
  destruct (isLineTerminator c0); [discriminate | reflexivity].
Qed.

Lemma matchKey_complete (key type id : jsstring) :
  wellShaped key type id -> matchKey key = Some (type, id).
Proof.
  intros (-> & Ht & Hno & Hi & Hlt). apply matchKey_compositeKey; assumption.
Qed.

Lemma formatted_fields (type id : jsstring) (props : list (jsstring * json)) :
  let record := setProp (codes "type") (JStr type)
                  (setProp (codes "id") (JStr id) props) in
  getProp (codes "type") record = Some (JStr type)
  /\ getProp (codes "id") record = Some (JStr id)
  /\ keyOf record = Some (compositeKey type id)
  /\ forall name, name <> codes "type" -> name <> codes "id" ->
       getProp name record = getProp name props.
Proof.
  intros record.
  assert (Htype : getProp (codes "type") record = Some (JStr type))
    by apply getProp_setProp_same.
  assert (Hid : getProp (codes "id") record = Some (JStr id)).
  { unfold record. rewrite getProp_setProp_other by discriminate.
    apply getProp_setProp_same. }
  split; [exact Htype|]. split; [exact Hid|]. split.
  - unfold keyOf. rewrite Htype, Hid. reflexivity.
  - intros name Ht Hi. unfold record.
    rewrite !getProp_setProp_other by congruence. reflexivity.
Qed.

Lemma formatRecord_decodes_core (key : jsstring)
    (props record : list (jsstring * json)) :
  _formatRecord key (Some props) = Ok record ->
  exists type id,
    wellShaped key type id
    /\ getProp (codes "type") record = Some (JStr type)
    /\ getProp (codes "id") record = Some (JStr id)
    /\ keyOf record = Some key
    /\ forall name, name <> codes "type" -> name <> codes "id" ->
         getProp name record = getProp name props.
Proof.
  unfold _formatRecord. intros H.
  destruct (matchKey key) as [[type id]|] eqn:E; [|discriminate].
  injection H as <-.
  pose proof (matchKey_sound _ _ _ E) as Hshape.
  destruct (formatted_fields type id props) as (Htype & Hid & Hkey & Hrest).
  exists type, id.
  split; [exact Hshape|]. split; [exact Htype|]. split; [exact Hid|].
  split; [|exact Hrest].
  destruct Hshape as [-> _]. exact Hkey.
Qed.

(** X9.  Whenever [_formatRecord] returns, the key was of the shape
    [type!id] with a non-empty [type] free of [!] and a non-empty [id]
    free of line terminators; the record returned carries this [type]
    and this [id], its key made again from them is the key given, and all
    its other members are those of the record given. *)
Theorem formatRecord_decodes (key : jsstring)
    (props record : list (jsstring * json)) :
  _formatRecord key (Some props) = Ok record ->
  exists type id,
    wellShaped key type id
    /\ getProp (codes "type") record = Some (JStr type)
    /\ getProp (codes "id") record = Some (JStr id)
    /\ keyOf record = Some key
    /\ forall name, name <> codes "type" -> name <> codes "id" ->
         getProp name record = getProp name props.
Proof. apply formatRecord_decodes_core. Qed.

Lemma formatRecord_decodes_witness :
  exists type id,
    wellShaped (codes "chat!a!b") type id
    /\ getProp (codes "type")
         (setProp (codes "type") (JStr (codes "chat"))
            (setProp (codes "id") (JStr (codes "a!b")) [(codes "id", JNum 3)]))
       = Some (JStr type)
    /\ getProp (codes "id")
         (setProp (codes "type") (JStr (codes "chat"))
            (setProp (codes "id") (JStr (codes "a!b")) [(codes "id", JNum 3)]))
       = Some (JStr id)
    /\ keyOf (setProp (codes "type") (JStr (codes "chat"))
                (setProp (codes "id") (JStr (codes "a!b")) [(codes "id", JNum 3)]))
       = Some (codes "chat!a!b")
    /\ forall name, name <> codes "type" -> name <> codes "id" ->
         getProp name
           (setProp (codes "type") (JStr (codes "chat"))
              (setProp (codes "id") (JStr (codes "a!b")) [(codes "id", JNum 3)]))
         = getProp name [(codes "id", JNum 3)].
Proof.
  apply (formatRecord_decodes (codes "chat!a!b") [(codes "id", JNum 3)]).
  vm_compute. reflexivity.
Defined.

Lemma formatRecord_cases (key : jsstring)
    (record : option (list (jsstring * json))) :
  ((exists r, _formatRecord key record = Ok r)
   <-> (exists props, record = Some props)
       /\ (exists type id, wellShaped key type id))
  /\ ((exists r, _formatRecord key record = Ok r)
      \/ _formatRecord key record = Throw TypeError).
Proof.
  unfold _formatRecord. split.
  - split.
    + intros [r H]. destruct (matchKey key) as [[type id]|] eqn:E; [|discriminate].
      destruct record as [props|]; [|discriminate].
      split; [eexists; reflexivity|]. exists type, id.
      apply matchKey_sound, E.
    + intros [[props ->] (type & id & Hshape)].
      rewrite (matchKey_complete _ _ _ Hshape). eexists. reflexivity.
  - destruct (matchKey key) as [[type id]|]; [|right; reflexivity].
    destruct record; [left; eexists; reflexivity | right; reflexivity].
Qed.

(** X10.  [_formatRecord] on every value that a response can hold.  It
    returns exactly when the key is well shaped and the record is neither
    [null] nor [undefined]; in every other case it throws a [TypeError],
    and never anything else.  With a well-shaped key [type!id], an object
    comes back with its members and [id] and [type] set to the two parts
    of the key; an array or a primitive comes back as such, or as its
    wrapper object, with the two members added. *)
Theorem formatRecord_succeeds_iff (key : jsstring) (record : option json) :
  ((exists r, _formatRecordAny key record = Ok r)
   <-> (record <> None /\ record <> Some JNull)
       /\ (exists type id, wellShaped key type id))
  /\ ((exists r, _formatRecordAny key record = Ok r)
      \/ _formatRecordAny key record = Throw TypeError)
  /\ (forall type id, wellShaped key type id ->
        (forall props,
           _formatRecordAny key (Some (JObj props))
           = Ok (Members (setProp (codes "type") (JStr type)
                            (setProp (codes "id") (JStr id) props))))
        /\ (forall base,
              base <> JNull -> (forall props, base <> JObj props) ->
              _formatRecordAny key (Some base) = Ok (Extended base id type)))
  /\ (forall props,
        _formatRecordAny key (Some (JObj props))
        = match _formatRecord key (Some props) with
          | Ok r => Ok (Members r)
          | Throw e => Throw e
          end).
Proof.
  split; [|split; [|split]].
  - unfold _formatRecordAny. split.
    + intros [r H]. destruct (matchKey key) as [[type id]|] eqn:E; [|discriminate].
      split; [|exists type, id; apply matchKey_sound, E].
      destruct record as [[]|]; try discriminate; split; discriminate.
    + intros [[Hu Hn] (type & id & Hshape)].
      rewrite (matchKey_complete _ _ _ Hshape).
      destruct record as [[]|]; try (eexists; reflexivity); congruence.
  - unfold _formatRecordAny.
    destruct (matchKey key) as [[type id]|]; [|right; reflexivity].
    destruct record as [[]|];
      try (left; eexists; reflexivity); right; reflexivity.
  - intros type id Hshape. unfold _formatRecordAny.
    rewrite (matchKey_complete _ _ _ Hshape). split; [reflexivity|].
    intros base Hn Ho. destruct base; try reflexivity.
    + congruence.
    + exfalso. eapply Ho. reflexivity.
  - intros props. unfold _formatRecordAny, _formatRecord.
    destruct (matchKey key) as [[type id]|]; reflexivity.
Qed.

(** A number as the record of a well-shaped key. *)
Example formatRecord_on_number :
  _formatRecordAny (codes "chat!a") (Some (JNum 5))
  = Ok (Extended (JNum 5) (codes "a") (codes "chat"))
  /\ _formatRecordAny (codes "chat!a") (Some JNull) = Throw TypeError
  /\ _formatRecordAny (codes "chat") (Some (JNum 5)) = Throw TypeError.
Proof. repeat split. Qed.

Lemma formatAll_keys (entries : list (jsstring * option (list (jsstring * json))))
    (records : list (list (jsstring * json))) :
  formatAll entries = Ok records ->
  map keyOf records = map (fun e => Some (fst e)) entries
  /\ Forall (fun e => exists props, snd e = Some props) entries.
Proof.
  revert records. induction entries as [|[key record] entries IH];
    intros records H; cbn [formatAll] in H.
  - inversion H. split; [reflexivity | constructor].
  - destruct (_formatRecord key record) as [r|] eqn:E; [|discriminate].
    destruct (formatAll entries) as [rs|]; [|discriminate].
    inversion H; subst records. destruct (IH rs eq_refl) as [Hk Hall].
    destruct record as [props|];
      [|unfold _formatRecord in E; destruct (matchKey key) as [[? ?]|]; discriminate].
    destruct (formatRecord_decodes_core _ _ _ E) as (type & id & _ & _ & _ & Hkey & _).
    cbn [map fst]. rewrite Hkey, Hk. split; [reflexivity|].
    constructor; [eexists; reflexivity | exact Hall].
Qed.

Lemma formatAll_throws (entries : list (jsstring * option (list (jsstring * json)))) :
  (exists records, formatAll entries = Ok records)
  \/ formatAll entries = Throw TypeError.
Proof.
  induction entries as [|[key record] entries IH]; cbn [formatAll].
  - left. eexists. reflexivity.
  - destruct (proj2 (formatRecord_cases key record)) as [[r ->]| ->];
      [|right; reflexivity].
    destruct IH as [[rs ->]| ->]; [left; eexists; reflexivity | right; reflexivity].
Qed.

(** X11.  The records formatter turns [null] into the empty list.  On an
    object it either throws a [TypeError] or returns one record per
    member, in the order of the members, each record carrying the key of
    its member; it throws as soon as one member is [null]. *)
Theorem recordsFormatter_keeps_keys
    (entries : list (jsstring * option (list (jsstring * json)))) :
  _recordsFormatter None = Ok []
  /\ ((exists records, _recordsFormatter (Some entries) = Ok records)
      \/ _recordsFormatter (Some entries) = Throw TypeError)
  /\ (forall records,
        _recordsFormatter (Some entries) = Ok records ->
        length records = length entries
        /\ map keyOf records = map (fun e => Some (fst e)) entries)
  /\ (forall key, In (key, None) entries ->
        _recordsFormatter (Some entries) = Throw TypeError).
Proof.
  cbn [_recordsFormatter]. split; [reflexivity|].
  split; [apply formatAll_throws|]. split.
  - intros records H. destruct (formatAll_keys _ _ H) as [Hk _].
    split; [|exact Hk].
    rewrite <- (length_map keyOf records), Hk, length_map. reflexivity.
  - intros key Hin.
    destruct (formatAll_throws entries) as [[records H]|H]; [|exact H].
    exfalso. destruct (formatAll_keys _ _ H) as [_ Hall].
    rewrite List.Forall_forall in Hall.
    destruct (Hall _ Hin) as [props Hp]. discriminate.
Qed.

(** X12.  The [put] listener ignores the path [/], and for every other
    path a notification without data (a removed record) makes it throw a
    [TypeError] instead of emitting an update. *)
Theorem putListener_ignores_and_rejects :
  (forall data, putListener (codes "/") data = None)
  /\ (forall path, path <> codes "/" ->
        putListener path None = Some (Throw TypeError)).
Proof.
  split.
  - intros data. reflexivity.
  - intros path Hne. unfold putListener.
    rewrite bool_decide_eq_false_2 by exact Hne.
    destruct (proj2 (formatRecord_cases (drop 1 path) None)) as [[r H]|H].
    + unfold _formatRecord in H.
      destruct (matchKey (drop 1 path)) as [[? ?]|]; discriminate.
    + rewrite H. reflexivity.
Qed.

(** X13.  For a path made of one leading unit and a well-shaped key, the
    [put] listener hands [_emit] an [update] whose record carries the
    [type] and [id] of the key next to the members of the data. *)
Theorem putListener_update (c : N) (type id : jsstring)
    (props : list (jsstring * json)) :
  type <> [] -> ~ In bang type ->
  id <> [] -> (forall u, In u id -> isLineTerminator u = false) ->
  exists record,
    putListener (c :: compositeKey type id) (Some props)
    = Some (Ok (codes "update", record))
    /\ getProp (codes "type") record = Some (JStr type)
    /\ getProp (codes "id") record = Some (JStr id)
    /\ forall name, name <> codes "type" -> name <> codes "id" ->
         getProp name record = getProp name props.
Proof.
  intros Ht Hno Hi Hlt. unfold putListener.
  rewrite bool_decide_eq_false_2.
  2:{ unfold compositeKey. destruct type; [congruence | discriminate]. }
  change (drop 1 (c :: compositeKey type id)) with (compositeKey type id).
  assert (Hshape : wellShaped (compositeKey type id) type id)
    by (unfold wellShaped; auto).
  destruct (proj2 (proj1 (formatRecord_cases (compositeKey type id) (Some props))))
    as [record E]; [split; [eexists; reflexivity | exists type, id; exact Hshape]|].
  rewrite E. exists record. split; [reflexivity|].
  destruct (formatRecord_decodes_core _ _ _ E) as (type' & id' & Hs' & Ht' & Hi' & _ & Hrest).
  pose proof (matchKey_complete _ _ _ Hshape) as M.
  pose proof (matchKey_complete _ _ _ Hs') as M'.
  rewrite M in M'. inversion M'; subst type' id'.
  split; [exact Ht'|]. split; [exact Hi' | exact Hrest].
Qed.

Lemma putListener_update_witness :
  exists record,
    putListener (47%N :: compositeKey (codes "chat") (codes "1000ABC"))
      (Some [(codes "text", JStr (codes "hi"))])
    = Some (Ok (codes "update", record))
    /\ getProp (codes "type") record = Some (JStr (codes "chat"))
    /\ getProp (codes "id") record = Some (JStr (codes "1000ABC"))
    /\ forall name, name <> codes "type" -> name <> codes "id" ->
         getProp name record = getProp name [(codes "text", JStr (codes "hi"))].
Proof.
  apply (putListener_update 47%N (codes "chat") (codes "1000ABC")
           [(codes "text", JStr (codes "hi"))]).
  - discriminate.
  - vm_compute. intuition discriminate.
  - discriminate.
  - intros u Hu. vm_compute in Hu.
    repeat (destruct Hu as [<-|Hu]; [reflexivity|]). destruct Hu.
Defined.

End FormatMore.

(** ** More on the handler table *)

Section HandlersMore.

Import FirebaseClient.

Context {U : Type}.
Variable inherited : jsstring -> bool.

Lemma removeFirst_absent (cb : nat) (l : list nat) :
  ~ In cb l -> removeFirst cb l = l.
Proof.
  induction l as [|c l IH]; intros Hno; cbn [removeFirst]; [reflexivity|].
  destruct (Nat.eqb_spec c cb) as [->|Hne]; [exfalso; apply Hno; left; reflexivity|].
  rewrite IH by (intros H; apply Hno; right; exact H). reflexivity.
Qed.

Lemma removeFirst_first (cb : nat) (a b : list nat) :
  ~ In cb a -> removeFirst cb (a ++ cb :: b) = a ++ b.
Proof.
  induction a as [|c a IH]; intros Hno; cbn [app removeFirst].
  - rewrite Nat.eqb_refl. reflexivity.
  - destruct (Nat.eqb_spec c cb) as [->|Hne]; [exfalso; apply Hno; left; reflexivity|].
    rewrite IH by (intros H; apply Hno; right; exact H). reflexivity.
Qed.

Lemma includes_spec (cb : nat) (l : list nat) :
  existsb (Nat.eqb cb) l = true <-> In cb l.
Proof.
  rewrite existsb_exists. split.
  - intros (x & Hx & E). apply Nat.eqb_eq in E. subst x. exact Hx.
  - intros H. exists cb. split; [exact H | apply Nat.eqb_refl].
Qed.

(** X14.  [off] throws nothing on an event that has a handler list.  It
    leaves everything as it is when the handler is not registered, and
    otherwise drops the first registration of the handler only: the
    handlers before and after it, later registrations of the same handler
    among them, keep their places. *)
Theorem off_removes_first (eventName : jsstring) (cb : nat) (w : hub U)
    (l : list nat) :
  _handlers w !! eventName = Some l ->
  (~ In cb l -> off inherited eventName cb w = (w, None))
  /\ (forall a b, l = a ++ cb :: b -> ~ In cb a ->
        off inherited eventName cb w
        = (Hub (<[eventName := a ++ b]> (_handlers w)) (rest w), None)).
Proof.
  intros Hl. unfold off. rewrite Hl. split.
  - intros Hno. destruct (existsb (Nat.eqb cb) l) eqn:E; [|reflexivity].
    apply includes_spec in E. contradiction.
  - intros a b -> Hno.
    rewrite (proj2 (includes_spec cb (a ++ cb :: b)))
      by (apply in_app_iff; right; left; reflexivity).
    rewrite removeFirst_first by exact Hno. reflexivity.
Qed.

Lemma snoc_is_cons (cb : nat) (b : list nat) :
  b ++ [cb] = cb :: b <-> b = replicate (length b) cb.
Proof.
  split.
  - induction b as [|x b IH]; intros H; [reflexivity|].
    cbn [app] in H. injection H as -> H.
    cbn [length replicate]. f_equal. apply IH, H.
  - intros H. rewrite H. symmetry. apply (replicate_S_end (length b) cb).
Qed.

(** X15.  Registering a handler with [on] and taking it off again with
    [off], on an event that has a handler list; neither call throws.
    When the handler was not registered before, the table is as it was.
    When it was, [off] takes away its oldest registration and the new one
    stays last, the other events keep their lists, and the table is as it
    was only if every registration after the oldest one is of that same
    handler. *)
Theorem on_then_off (eventName : jsstring) (cb : nat) (w : hub U) (l : list nat) :
  _handlers w !! eventName = Some l ->
  let w1 := fst (on inherited eventName cb w) in
  let w2 := fst (off inherited eventName cb w1) in
  snd (on inherited eventName cb w) = None
  /\ snd (off inherited eventName cb w1) = None
  /\ (~ In cb l -> w2 = w)
  /\ (forall a b, l = a ++ cb :: b -> ~ In cb a ->
        _handlers w2 !! eventName = Some (a ++ b ++ [cb])
        /\ (forall other, other <> eventName ->
              _handlers w2 !! other = _handlers w !! other)
        /\ rest w2 = rest w
        /\ (w2 = w <-> b = replicate (length b) cb)).
Proof.
  intros Hl w1 w2. subst w2 w1. unfold on. rewrite Hl. cbn [fst snd].
  unfold off. cbn [_handlers rest]. rewrite lookup_insert_eq.
  rewrite (proj2 (includes_spec cb (l ++ [cb])))
    by (apply in_app_iff; right; left; reflexivity).
  cbn [fst snd _handlers]. split; [reflexivity|]. split; [reflexivity|]. split.
  - intros Hno. rewrite removeFirst_first, app_nil_r by exact Hno.
    rewrite insert_insert_eq. rewrite insert_id by exact Hl.
    destruct w. reflexivity.
  - intros a b -> Hno.
    rewrite <- app_assoc. cbn [app].
    rewrite (removeFirst_first cb a (b ++ [cb]) Hno).
    rewrite insert_insert_eq.
    split; [apply lookup_insert_eq|].
    split; [intros other Hne; apply lookup_insert_ne; congruence|].
    split; [reflexivity|].
    rewrite <- snoc_is_cons. split.
    + intros E. apply (f_equal (fun h => _handlers h !! eventName)) in E.
      cbn [_handlers] in E. rewrite lookup_insert_eq, Hl in E.
      injection E as E. apply app_inv_head in E. exact E.
    + intros E. rewrite E. rewrite insert_id by exact Hl.
      destruct w. reflexivity.
Qed.

End HandlersMore.

Section HandlersExamples.

Import FirebaseClient.

Lemma off_removes_first_witness :
  let w := Hub {[ codes "put" := [4; 7; 5; 7]%nat ]} tt in
  (~ In 7%nat [4; 7; 5; 7]%nat -> off (fun _ => false) (codes "put") 7 w = (w, None))
  /\ (forall a b, [4; 7; 5; 7]%nat = a ++ 7%nat :: b -> ~ In 7%nat a ->
        off (fun _ => false) (codes "put") 7 w
        = (Hub (<[codes "put" := a ++ b]> (_handlers w)) (rest w), None)).
Proof.
  intros w.
  apply (off_removes_first (fun _ => false) (codes "put") 7 w [4; 7; 5; 7]%nat).
  vm_compute. reflexivity.
Defined.

Lemma on_then_off_witness :
  let w := Hub {[ codes "put" := [4; 7; 5]%nat ]} tt in
  let w1 := fst (on (fun _ => false) (codes "put") 7 w) in
  let w2 := fst (off (fun _ => false) (codes "put") 7 w1) in
  snd (on (fun _ => false) (codes "put") 7 w) = None
  /\ snd (off (fun _ => false) (codes "put") 7 w1) = None
  /\ (~ In 7%nat [4; 7; 5]%nat -> w2 = w)
  /\ (forall a b, [4; 7; 5]%nat = a ++ 7%nat :: b -> ~ In 7%nat a ->
        _handlers w2 !! codes "put" = Some (a ++ b ++ [7%nat])
        /\ (forall other, other <> codes "put" ->
              _handlers w2 !! other = _handlers w !! other)
        /\ rest w2 = rest w
        /\ (w2 = w <-> b = replicate (length b) 7%nat)).
Proof.
  intros w.
  apply (on_then_off (fun _ => false) (codes "put") 7 w [4; 7; 5]%nat).
  vm_compute. reflexivity.
Defined.

(** A handler that is registered already: taking it off moves it to the
    end of the list, unless it was last. *)
Example on_then_off_registered :
  (let w := Hub {[ codes "put" := [4; 7; 5]%nat ]} tt in
   fst (off (fun _ => false) (codes "put") 7
          (fst (on (fun _ => false) (codes "put") 7 w)))
   = Hub {[ codes "put" := [4; 5; 7]%nat ]} tt)
  /\ (let w := Hub {[ codes "put" := [4; 7]%nat ]} tt in
      fst (off (fun _ => false) (codes "put") 7
             (fst (on (fun _ => false) (codes "put") 7 w)))
      = w).
Proof. split; vm_compute; reflexivity. Qed.

End HandlersExamples.

(** ** More on the event stream *)

Section ConnectMore.

Import FirebaseClient.

(** X16.  The promise of [connect()] is decided by the first thing its
    event source reports: it is pending while nothing is reported,
    fulfilled when the first report is [open], and rejected with the error
    when the first report is an error; nothing reported later changes
    it. *)
Theorem connect_result_by_first_report (c : client) (rs : list report) :
  connectResult (deliverAll rs (connect c))
  = match rs with
    | [] => Pending
    | Open :: _ => Fulfilled
    | Failure e :: _ => Rejected e
    end.
Proof.
  destruct rs as [|[|e] rs]; [reflexivity| |];
    cbn [deliverAll fold_left deliver];
    match goal with
    | |- connectResult (fold_left deliver ?l ?x) = _ =>
        change (fold_left deliver l x) with (deliverAll l x)
    end;
    rewrite settled_stays; try reflexivity; cbn; discriminate.
Qed.

Lemma emits_once_open (rs : list report) (c : client) :
  resolved c = true ->
  emits (deliverAll rs c) = emits c ++ map errorNotice (failures rs).
Proof.
  revert c. induction rs as [|[|e] rs IH]; intros c Hres;
    cbn [deliverAll fold_left deliver failures map].
  - rewrite app_nil_r. reflexivity.
  - fold (deliverAll rs (onopen c)). rewrite IH.
    + unfold onopen, settle. cbn. destruct (connectResult c); reflexivity.
    + unfold onopen, settle. cbn. destruct (connectResult c); reflexivity.
  - fold (deliverAll rs (onerror e c)). rewrite IH.
    + unfold onerror. rewrite Hres. cbn. rewrite <- app_assoc. reflexivity.
    + unfold onerror. rewrite Hres. cbn. exact Hres.
Qed.

Lemma emits_until_open (rs : list report) (c : client) :
  resolved c = false ->
  emits (deliverAll rs c) = emits c ++ map errorNotice (failures (afterOpen rs)).
Proof.
  revert c. induction rs as [|[|e] rs IH]; intros c Hres;
    cbn [deliverAll fold_left deliver afterOpen].
  - cbn. rewrite app_nil_r. reflexivity.
  - fold (deliverAll rs (onopen c)). rewrite emits_once_open.
    + unfold onopen, settle. cbn. destruct (connectResult c); reflexivity.
    + unfold onopen, settle. cbn. destruct (connectResult c); reflexivity.
  - fold (deliverAll rs (onerror e c)). rewrite IH.
    + unfold onerror, settle. rewrite Hres. cbn.
      destruct (connectResult c); reflexivity.
    + unfold onerror, settle. rewrite Hres. cbn.
      destruct (connectResult c); cbn; try rewrite Hres; reflexivity.
Qed.

(** X17.  After [connect()], the [error] notifications emitted are
    exactly the errors that the event source reports after its first
    [open], one notification for each and in their order; the errors
    before the first [open] are never emitted. *)
Theorem error_notices_follow_open (c : client) (rs : list report) :
  emits (deliverAll rs (connect c))
  = emits (connect c) ++ map errorNotice (failures (afterOpen rs)).
Proof. apply emits_until_open. reflexivity. Qed.

Lemma closed_keeps_one_source (s : sources) (x : nat) :
  oneSourceAtMost s -> current s = Some x ->
  oneSourceAtMost (Sources None (made s) (shut s ++ [x])).
Proof.
  intros (H1 & H2 & H3) Hx. destruct (H2 x Hx) as [Hlt Hns].
  split; [|split]; cbn [current made shut].
  - intros y Hy. right. apply in_app_iff.
    destruct (H1 y Hy) as [E|Hin]; [|left; exact Hin].
    rewrite Hx in E. injection E as ->. right. left. reflexivity.
  - intros y E. discriminate.
  - intros y Hin. apply in_app_iff in Hin. destruct Hin as [Hin|[<-|[]]].
    + apply H3, Hin.
    + exact Hlt.
Qed.

Lemma opened_keeps_one_source (s : sources) :
  oneSourceAtMost s -> current s = None ->
  oneSourceAtMost (Sources (Some (made s)) (S (made s)) (shut s)).
Proof.
  intros (H1 & H2 & H3) Hnone. split; [|split]; cbn [current made shut].
  - intros y Hy. destruct (decide (y = made s)) as [->|Hne]; [left; reflexivity|].
    right. destruct (H1 y ltac:(lia)) as [E|Hin]; [congruence | exact Hin].
  - intros y E. injection E as <-. split; [lia|].
    intros Hin. specialize (H3 _ Hin). lia.
  - intros y Hin. specialize (H3 _ Hin). lia.
Qed.

Section Reentrancy.

Variable handlers : jsstring -> payload -> sources -> sources * bool.
Hypothesis Hkeep : keepSources handlers.

Lemma closeSources_keeps (reason : jsstring) (s : sources) :
  oneSourceAtMost s ->
  oneSourceAtMost (fst (closeSources handlers reason s))
  /\ current (fst (closeSources handlers reason s)) = None.
Proof.
  intros Hs. unfold closeSources. destruct (current s) as [x|] eqn:Hx.
  - destruct (Hkeep (codes "close") (CloseInfo reason None) _
                (closed_keeps_one_source s x Hs Hx)) as [Hinv Hnone].
    split; [exact Hinv | apply Hnone; reflexivity].
  - split; [exact Hs | exact Hx].
Qed.

Lemma connectSources_keeps (s : sources) :
  oneSourceAtMost s -> oneSourceAtMost (connectSources handlers s).
Proof.
  intros Hs. unfold connectSources. destruct (current s) as [x|] eqn:Hx.
  - destruct (closeSources_keeps (codes "reconnect") s Hs) as [Hinv Hnone].
    destruct (closeSources handlers (codes "reconnect") s) as [s1 thrown].
    cbn [fst] in Hinv, Hnone.
    destruct thrown; [exact Hinv|].
    apply opened_keeps_one_source; assumption.
  - apply opened_keeps_one_source; assumption.
Qed.

Lemma runStep_keeps (s : sources) (a : step) :
  oneSourceAtMost s -> oneSourceAtMost (runStep handlers s a).
Proof.
  intros Hs. destruct a as [|reason|eventName p]; cbn [runStep].
  - apply connectSources_keeps, Hs.
  - apply closeSources_keeps, Hs.
  - apply Hkeep, Hs.
Qed.

End Reentrancy.

Lemma quiet_keeps_sources : keepSources quiet.
Proof. intros eventName p s Hs. split; [exact Hs | intros H; exact H]. Qed.

Lemma closing_keeps_sources : keepSources closing.
Proof.
  intros eventName p s Hs. unfold closing.
  destruct (closeSources_keeps quiet quiet_keeps_sources (codes "done") s Hs)
    as [Hinv Hnone].
  split; [exact Hinv | intros _; exact Hnone].
Qed.

(** X18.  The event sources over any sequence of [connect()] and
    [close()] calls and of events, with the handlers run where [emit] is
    called.  When the handlers keep to the rule themselves and do not
    connect while the client holds no source, the client never holds two
    event sources that were not closed: every source it made is the
    current one or had [close()] called on it, [connect()] closing the
    previous source before it makes the next; and the current source is
    never a closed one. *)
Theorem one_source_at_most
    (handlers : jsstring -> payload -> sources -> sources * bool)
    (steps : list step) :
  keepSources handlers ->
  oneSourceAtMost (runSteps handlers steps (sourcesOf newClient)).
Proof.
  intros Hkeep. induction steps as [|a steps IH] using rev_ind.
  - split; [intros x Hx; cbn in Hx; lia|].
    split; [intros x E; discriminate | intros x []].
  - unfold runSteps. rewrite fold_left_app. cbn [fold_left].
    apply runStep_keeps; [exact Hkeep | exact IH].
Qed.

Lemma one_source_at_most_witness :
  oneSourceAtMost
    (runSteps closing
       [StepConnect; StepEmit (codes "put") (Parsed JNull); StepConnect;
        StepConnect; StepClose (codes "done")]
       (sourcesOf newClient)).
Proof.
  apply (one_source_at_most closing
           [StepConnect; StepEmit (codes "put") (Parsed JNull); StepConnect;
            StepConnect; StepClose (codes "done")]).
  apply closing_keeps_sources.
Defined.

(** With handlers that leave the client alone, the sources are those of
    [connect] and [close] above.  A handler of [close] that calls
    [connect()] breaks the rule: on a second [connect()], the source that
    the handler made is replaced without being closed. *)
Example reconnecting_handler_loses_a_source :
  (forall c, sourcesOf (connect c) = connectSources quiet (sourcesOf c))
  /\ (forall reason c,
        sourcesOf (close reason c) = fst (closeSources quiet reason (sourcesOf c)))
  /\ runSteps reconnecting [StepConnect; StepConnect] (sourcesOf newClient)
     = Sources (Some 2%nat) 3 [0%nat]
  /\ ~ oneSourceAtMost
         (runSteps reconnecting [StepConnect; StepConnect] (sourcesOf newClient)).
Proof.
  split; [|split; [|split]].
  - intros [[src|] n closed res pr em wa]; reflexivity.
  - intros reason [[src|] n closed res pr em wa]; reflexivity.
  - vm_compute. reflexivity.
  - intros (H1 & _). destruct (H1 1%nat) as [E|Hin].
    + vm_compute. lia.
    + vm_compute in E. discriminate.
    + vm_compute in Hin. destruct Hin as [E|[]]. discriminate.
Qed.

(** X19.  After [close(reason)] the client holds no event source, and a
    second [close] emits nothing: it only logs the warning.  On a client
    without event source the first [close] emits nothing either. *)
Theorem close_twice (c : client) (reason1 reason2 : jsstring) :
  _sse (close reason1 c) = None
  /\ close reason2 (close reason1 c)
     = warn "Attempt to close event stream that isn't open" (close reason1 c)
  /\ emits (close reason2 (close reason1 c)) = emits (close reason1 c)
  /\ (_sse c = None -> emits (close reason1 c) = emits c).
Proof.
  destruct c as [[s|] made closed res pr em wa]; cbn; repeat split; discriminate.
Qed.

(** X20.  A [close] event of the event source emits [close] with the
    reason [reset] but keeps the source as the current one.  A later
    [close(reason)] therefore calls [close()] on that source and emits a
    second [close], and a later [connect()] warns about reconnecting
    and emits [close] with the reason [reconnect]. *)
Theorem unexpected_close_keeps_source (c : client) (s event : nat) (reason : jsstring) :
  _sse c = Some s ->
  _sse (_onClose event c) = Some s
  /\ emits (close reason (_onClose event c))
     = emits c ++ [(codes "close", CloseInfo (codes "reset") (Some event));
                   (codes "close", CloseInfo reason None)]
  /\ closedSources (close reason (_onClose event c)) = closedSources c ++ [s]
  /\ emits (connect (_onClose event c))
     = emits c ++ [(codes "close", CloseInfo (codes "reset") (Some event));
                   (codes "close", CloseInfo (codes "reconnect") None)]
  /\ warnings (connect (_onClose event c))
     = warnings c ++ ["Event stream unexpectedly closed:";
                      "Reconnecting with open event stream"]%string
  /\ _sse (connect (_onClose event c)) = Some (sourcesMade c).
Proof.
  destruct c as [sse made closed res pr em wa]. cbn [_sse]. intros ->.
  cbn. rewrite <- !app_assoc. repeat split.
Qed.

Lemma unexpected_close_keeps_source_witness :
  let c := connect newClient in
  _sse (_onClose 9 c) = Some 0%nat
  /\ emits (close (codes "bye") (_onClose 9 c))
     = emits c ++ [(codes "close", CloseInfo (codes "reset") (Some 9%nat));
                   (codes "close", CloseInfo (codes "bye") None)]
  /\ closedSources (close (codes "bye") (_onClose 9 c)) = closedSources c ++ [0%nat]
  /\ emits (connect (_onClose 9 c))
     = emits c ++ [(codes "close", CloseInfo (codes "reset") (Some 9%nat));
                   (codes "close", CloseInfo (codes "reconnect") None)]
  /\ warnings (connect (_onClose 9 c))
     = warnings c ++ ["Event stream unexpectedly closed:";
                      "Reconnecting with open event stream"]%string
  /\ _sse (connect (_onClose 9 c)) = Some (sourcesMade c).
Proof.
  intros c.
  apply (unexpected_close_keeps_source c 0 9 (codes "bye")).
  reflexivity.
Defined.

End ConnectMore.

(** ** More on addresses and writes *)

Section UrlMore.

Import FirebaseClient.

Lemma joinWith_joined (parts : list jsstring) :
  joinWith [slash] parts = joined parts.
Proof.
  destruct parts as [|first others]; [reflexivity|].
  revert first. induction others as [|part others IH]; intros first.
  - cbn. rewrite app_nil_r. reflexivity.
  - change (joinWith [slash] (first :: part :: others))
      with (first ++ [slash] ++ joinWith [slash] (part :: others)).
    rewrite IH. unfold joined. cbn [map concat app]. reflexivity.
Qed.

(** X21.  The address that [_makeUrl] returns, for a base address and a
    path with any number of slashes at the end of the base and at both
    ends of the path: the base without its trailing slashes, one slash,
    the path without its leading and trailing slashes, and [.json].  A
    path given as an array is the path of its parts joined by slashes,
    and gets the same address as that string. *)
Theorem makeUrl_normalises (u p : jsstring) (n a b : nat) :
  last u <> Some slash -> head p <> Some slash -> last p <> Some slash ->
  _makeUrl (u ++ replicate n slash)
    (PathString (replicate a slash ++ p ++ replicate b slash))
  = u ++ [slash] ++ p ++ codes ".json"
  /\ (forall parts,
        joined parts = replicate a slash ++ p ++ replicate b slash ->
        _makeUrl (u ++ replicate n slash) (PathArray parts)
        = u ++ [slash] ++ p ++ codes ".json").
Proof.
  intros Hu Hh Hl. split; [apply makeUrl_literal; assumption|].
  intros parts Hparts.
  rewrite <- (makeUrl_literal u p n a b Hu Hh Hl), <- Hparts.
  unfold _makeUrl. rewrite joinWith_joined. reflexivity.
Qed.

Lemma makeUrl_normalises_witness :
  _makeUrl (codes "https://db.example/app//") (PathString (codes "/rooms/chat!x/"))
  = codes "https://db.example/app" ++ [slash] ++ codes "rooms/chat!x"
    ++ codes ".json"
  /\ (forall parts,
        joined parts = codes "/rooms/chat!x/" ->
        _makeUrl (codes "https://db.example/app//") (PathArray parts)
        = codes "https://db.example/app" ++ [slash] ++ codes "rooms/chat!x"
          ++ codes ".json").
Proof.
  apply (makeUrl_normalises (codes "https://db.example/app")
           (codes "rooms/chat!x") 2 1 1);
    vm_compute; discriminate.
Defined.

(** The same address from an array of two parts, and from the empty
    path. *)
Example makeUrl_addresses :
  _makeUrl (codes "https://db.example/app//")
    (PathArray [codes "/rooms"; codes "chat!x/"])
  = codes "https://db.example/app/rooms/chat!x.json"
  /\ _makeUrl (codes "https://db.example/app/") (PathString [])
     = codes "https://db.example/app/.json"
  /\ _makeUrl (codes "https://db.example/app") (PathArray [])
     = codes "https://db.example/app/.json".
Proof. vm_compute. repeat split. Qed.

(** X22.  When the key made of [type] and [id] is not well shaped, for
    instance for an empty [type], [update] still sends its [PUT] to the
    address of that key, but the answer can never be formatted: the
    callback given to [then] throws a [TypeError] on every answer. *)
Theorem update_unformattable (url type id : jsstring) (value : option json) :
  (forall t i, ~ wellShaped (compositeKey type id) t i) ->
  (exists req,
     sent (update url type id value) = Ok req
     /\ method req = "PUT"%string
     /\ target req = _makeUrl url (PathString (compositeKey type id)))
  /\ forall answer,
       whenDone (update url type id value) answer = Throw TypeError.
Proof.
  intros Hbad. split.
  - eexists. split; [reflexivity|]. split; reflexivity.
  - intros answer. cbn [update whenDone].
    destruct (formatRecord_cases (compositeKey type id) answer) as [Hiff [Hok|Ht]];
      [|exact Ht].
    exfalso. apply Hiff in Hok. destruct Hok as [_ (t & i & Hs)].
    exact (Hbad t i Hs).
Qed.

Lemma update_unformattable_witness :
  (exists req,
     sent (update (codes "https://db.example/app") [] (codes "x") (Some (JNum 1)))
     = Ok req
     /\ method req = "PUT"%string
     /\ target req
        = _makeUrl (codes "https://db.example/app")
            (PathString (compositeKey [] (codes "x"))))
  /\ forall answer,
       whenDone (update (codes "https://db.example/app") [] (codes "x") (Some (JNum 1)))
         answer
       = Throw TypeError.
Proof.
  apply (update_unformattable (codes "https://db.example/app") [] (codes "x")
           (Some (JNum 1))).
  intros t i (Hk & Ht & Hno & _).
  destruct t as [|c t]; [congruence|].
  unfold compositeKey in Hk. cbn [app] in Hk. injection Hk as Hc _.
  apply Hno. left. symmetry. exact Hc.
Defined.

(** X23.  A [type] that holds a [!] does not come back from [update]:
    the answer is formatted with the part of the type before its first
    [!] as [type] and everything after it as [id], although the key made
    again from the two is still the key written. *)
Theorem update_splits_at_first_bang (url t1 t2 id : jsstring)
    (value : option json) (answer : list (jsstring * json)) :
  t1 <> [] -> ~ In bang t1 ->
  (forall c, In c (t2 ++ bang :: id) -> isLineTerminator c = false) ->
  exists record,
    whenDone (update url (t1 ++ bang :: t2) id value) (Some answer) = Ok record
    /\ getProp (codes "type") record = Some (JStr t1)
    /\ getProp (codes "id") record = Some (JStr (t2 ++ bang :: id))
    /\ keyOf record = Some (compositeKey (t1 ++ bang :: t2) id).
Proof.
  intros Ht Hno Hlt. cbn [update whenDone].
  assert (Hkey : compositeKey (t1 ++ bang :: t2) id
                 = compositeKey t1 (t2 ++ bang :: id)).
  { unfold compositeKey. rewrite <- !app_assoc. reflexivity. }
  rewrite Hkey. unfold _formatRecord.
  rewrite matchKey_compositeKey; try assumption;
    [|destruct t2; discriminate].
  eexists. split; [reflexivity|].
  destruct (formatted_fields t1 (t2 ++ bang :: id) answer) as (A & B & C & _).
  split; [exact A|]. split; [exact B | exact C].
Qed.

Lemma update_splits_at_first_bang_witness :
  exists record,
    whenDone (update (codes "u") (codes "a" ++ bang :: codes "b") (codes "7") None)
      (Some [(codes "timestamp", JNum 5)])
    = Ok record
    /\ getProp (codes "type") record = Some (JStr (codes "a"))
    /\ getProp (codes "id") record = Some (JStr (codes "b" ++ bang :: codes "7"))
    /\ keyOf record
       = Some (compositeKey (codes "a" ++ bang :: codes "b") (codes "7")).
Proof.
  apply (update_splits_at_first_bang (codes "u") (codes "a") (codes "b")
           (codes "7") None [(codes "timestamp", JNum 5)]).
  - discriminate.
  - vm_compute. intuition discriminate.
  - intros c Hc. vm_compute in Hc.
    repeat (destruct Hc as [<-|Hc]; [reflexivity|]). destruct Hc.
Defined.

End UrlMore.
